(** * virtuale-downloader: the DASH audio pipeline of [main.py], its
    helpers, and the transcription and conversion scripts

    A shallow embedding of the manifest interpretation, IV resolution,
    segment retrieval, decryption and ordered reassembly code of
    [main.py], of its helpers ([_sanitize_filename], [_parse_args], the
    response listener and the manifest search of [download_audio]), of
    the retry, merging and filtering code of [transcribe.py] and of
    [convert_mp3.py], and the properties of that code.

    Layout: the Python and ElementTree fragments the code relies on, the
    data model, fixtures (a test cipher, a decimal parser, sample
    manifests and networks), then the code itself inside a section
    whose variables are the external collaborators (the [int] builtin,
    [html.unescape], the AES block primitive, ffmpeg, the decoder of a
    response body, the arithmetic of the timestamps), and finally the
    properties.

    How the environment is modelled:
    - the manifest is the element tree [ET.fromstring] returns, with
      namespaced tags; the XML parser itself is not modelled;
    - the network gives a task, for a URL and the number of requests the
      task has already made for it, a response or an exception; in a
      download session the tasks are the session itself and the fetch
      of each segment;
    - the ffmpeg run gives its return code, or the exception of
      [subprocess.run], and the file it leaves at the destination;
    - the cookies handed to the HTTP client only bear on what the
      network answers, and opening and writing the temporary file is
      taken to succeed;
    - [asyncio.gather] is given the order in which its awaitables
      complete, and fills one slot per awaitable; the semaphore only
      bounds how many requests are in flight and is left out;
    - a fetch returns its result together with the requests and sleeps it
      made;
    - what is printed is kept as a list of messages, one constructor per
      [print], for the download session, and left out elsewhere;
    - a string is the list of its characters, code points below 256;
    - the files are a map from the paths that exist to their content, or
      the set of the paths that exist where the content plays no part;
    - the transcription service gives, for a part and the number of
      calls already made for it, segments or an exception. *)

From Stdlib Require Import ZArith String Ascii DecimalString Sorted Permutation.
From Stdlib.Strings Require Import Byte.
From Equations Require Import Equations.
From stdpp Require Import base option list sorting gmap strings.

Open Scope Z_scope.

(** ** Python fragments *)

Module Py.

(** The exceptions the modelled code can raise. [TransportError] stands
    for whatever [httpx] raises from [client.get], [OSError] for what
    [subprocess.run] raises when the program cannot be started and for
    the [FileNotFoundError] of [Path.stat]. *)
Inductive exn :=
  ValueError | TypeError | AttributeError | TransportError | OSError.

(** A Python computation either returns or raises. *)
Inductive result (A : Type) :=
| Ok (a : A)
| Raise (e : exn).
Arguments Ok {A} a.
Arguments Raise {A} e.

#[global] Instance result_ret : MRet result := @Ok.
#[global] Instance result_bind : MBind result := λ A B f m,
  match m with Ok a => f a | Raise e => Raise e end.
#[global] Instance result_fmap : FMap result := λ A B f m,
  match m with Ok a => Ok (f a) | Raise e => Raise e end.

(** [for x in l: st = body(st, x)], where the body may raise (in
    [result]) or never complete (in [option]). *)
Fixpoint for_each {M} `{!MBind M, !MRet M} {S A}
    (body : S → A → M S) (l : list A) (st : S) : M S :=
  match l with
  | [] => mret st
  | x :: l' => st' ← body st x; for_each body l' st'
  end.

(** Attribute access or method call on a value that may be [None]. *)
Definition require {A} (o : option A) : result A :=
  match o with Some a => Ok a | None => Raise AttributeError end.

Abbreviation bytes := (list byte).

(** The integer a byte is when indexed out of a [bytes] object. *)
Definition byte_val (b : byte) : Z := Z.of_N (Byte.to_N b).

(** [l[-n:]] and [l[:-n]] for [n >= 1]: Python clamps a start before
    the beginning of the sequence to the beginning, as the truncated
    subtraction does. *)
Definition slice_last {A} (n : nat) (l : list A) : list A :=
  drop (length l - n)%nat l.
Definition slice_but_last {A} (n : nat) (l : list A) : list A :=
  take (length l - n)%nat l.

(** [l[a:b]] for [0 <= a <= b]. *)
Definition slice {A} (a b : nat) (l : list A) : list A :=
  take (b - a)%nat (drop a l).

(** [range(start, stop, step)] for a positive [step]; [stop] iterations
    are enough to reach [stop]. *)
Fixpoint range_from (fuel start stop step : nat) : list nat :=
  match fuel with
  | O => []
  | S fuel' =>
      if (start <? stop)%nat
      then start :: range_from fuel' (start + step)%nat stop step
      else []
  end.
Definition range (start stop step : nat) : list nat :=
  range_from stop start stop step.

(** [str(n)] for an integer. *)
Definition str (n : Z) : string := NilZero.string_of_int (Z.to_int n).

(** [s.replace(old, new)] for a non-empty [old], as at every call site:
    occurrences are replaced left to right and do not overlap. [skip]
    counts the characters of a matched occurrence still to drop. *)
Fixpoint replace_go (old new : string) (skip : nat) (s : string) : string :=
  match s with
  | EmptyString => EmptyString
  | String c s' =>
      match skip with
      | S k => replace_go old new k s'
      | O =>
          if String.prefix old s
          then new +:+ replace_go old new (String.length old - 1) s'
          else String c (replace_go old new 0 s')
      end
  end.
Definition replace (s old new : string) : string := replace_go old new 0 s.

(** [Py_ISSPACE]: the characters [bytes.fromhex] skips. *)
Definition is_space (c : ascii) : bool :=
  let n := N_of_ascii c in
  ((9 <=? n) && (n <=? 13) || (n =? 32))%N.

(** [_PyLong_DigitValue] restricted to base 16. *)
Definition hex_digit (c : ascii) : option N :=
  let n := N_of_ascii c in
  if ((48 <=? n) && (n <=? 57))%N then Some (n - 48)%N
  else if ((97 <=? n) && (n <=? 102))%N then Some (n - 87)%N
  else if ((65 <=? n) && (n <=? 70))%N then Some (n - 55)%N
  else None.

Definition byte_of_nibbles (top bot : N) : byte :=
  default x00 (Byte.of_N (16 * top + bot)).

(** [bytes.fromhex(s)]: whitespace is skipped between bytes, each byte
    is two adjacent hexadecimal digits, anything else is a
    [ValueError]. *)
Fixpoint fromhex (s : string) : result bytes :=
  match s with
  | EmptyString => Ok []
  | String c s' =>
      if is_space c then fromhex s'
      else
        match hex_digit c, s' with
        | Some top, String c' s'' =>
            match hex_digit c' with
            | Some bot => (byte_of_nibbles top bot ::.) <$> fromhex s''
            | None => Raise ValueError
            end
        | _, _ => Raise ValueError
        end
  end.

(** [asyncio.gather] over a list of awaitables: they complete in some order
    ([order] lists their positions as they complete); each result is
    stored in the slot of its awaitable and the list of slots is
    returned once every slot is filled. [None] is a gather that never
    completes. *)
Definition complete {A} (tasks : list A) (slots : list (option A)) (i : nat)
  : list (option A) :=
  match tasks !! i with
  | Some r => <[i := Some r]> slots
  | None => slots
  end.
Definition gather {A} (order : list nat) (tasks : list A) : option (list A) :=
  mapM id (foldl (complete tasks) (replicate (length tasks) None) order).

(** *** Strings

    A character is a code point below 256; the functions below go
    through the list of the characters of a string. *)
Definition chars (s : string) : list ascii := list_ascii_of_string s.
Definition of_chars (l : list ascii) : string := string_of_list_ascii l.

(** [c.isspace()]: the characters [s.strip()] removes and [s.split()]
    splits at. *)
Definition isspace (c : ascii) : bool :=
  let n := N_of_ascii c in
  ((9 <=? n) && (n <=? 13) || (28 <=? n) && (n <=? 32)
   || (n =? 133) || (n =? 160))%N.

(** [s.lower()]: the ASCII capitals and the Latin-1 capitals (the
    multiplication sign, 215, is not one) move up by 32. *)
Definition lower_char (c : ascii) : ascii :=
  let n := N_of_ascii c in
  if ((65 <=? n) && (n <=? 90)
      || (192 <=? n) && (n <=? 222) && negb (n =? 215))%N
  then ascii_of_N (n + 32) else c.
Definition lower (s : string) : string := of_chars (lower_char <$> chars s).

Fixpoint take_while {A} (p : A → bool) (l : list A) : list A :=
  match l with
  | [] => []
  | x :: l' => if p x then x :: take_while p l' else []
  end.
Fixpoint drop_while {A} (p : A → bool) (l : list A) : list A :=
  match l with
  | [] => []
  | x :: l' => if p x then drop_while p l' else l
  end.

(** [s.strip(..)] on the characters: the leading characters that
    satisfy [p] go, then the trailing ones. *)
Definition strip_list (p : ascii → bool) (l : list ascii) : list ascii :=
  reverse (drop_while p (reverse (drop_while p l))).

(** [s.strip()] and [s.strip(cs)]. *)
Definition strip (s : string) : string :=
  of_chars (strip_list isspace (chars s)).
Definition strip_chars (s cs : string) : string :=
  of_chars (strip_list (λ c, bool_decide (c ∈ chars cs)) (chars s)).

(** [x in s] for two strings: [x] starts at some position of [s]. *)
Fixpoint contains (x s : string) : bool :=
  String.prefix x s
  || match s with
     | EmptyString => false
     | String _ s' => contains x s'
     end.

(** [s.startswith(x)], [s.endswith(x)] and [s[:n]]. *)
Definition startswith (s x : string) : bool := String.prefix x s.
Definition endswith (s x : string) : bool :=
  bool_decide (chars x `suffix_of` chars s).
Definition slice_to (n : nat) (s : string) : string :=
  of_chars (take n (chars s)).

(** [s.splitlines()]: a line ends at a line boundary, which is not part
    of the line; a carriage return followed by a line feed is one
    boundary; there is no empty last line. [cur] holds the characters
    of the current line, last one first. *)
Definition is_linebreak (c : ascii) : bool :=
  let n := N_of_ascii c in
  ((10 <=? n) && (n <=? 13) || (28 <=? n) && (n <=? 30) || (n =? 133))%N.
Fixpoint splitlines_go (cur l : list ascii) : list string :=
  match l with
  | [] => match cur with [] => [] | _ => [of_chars (reverse cur)] end
  | c :: l' =>
      if is_linebreak c then
        of_chars (reverse cur)
        :: match l' with
           | c' :: l'' =>
               if ((N_of_ascii c =? 13) && (N_of_ascii c' =? 10))%N
               then splitlines_go [] l''
               else splitlines_go [] l'
           | [] => []
           end
      else splitlines_go (c :: cur) l'
  end.
Definition splitlines (s : string) : list string := splitlines_go [] (chars s).

(** [s.split()]: the maximal runs of characters that are not
    whitespace. *)
Fixpoint split_go (cur l : list ascii) : list string :=
  match l with
  | [] => match cur with [] => [] | _ => [of_chars (reverse cur)] end
  | c :: l' =>
      if isspace c then
        match cur with
        | [] => split_go [] l'
        | _ => of_chars (reverse cur) :: split_go [] l'
        end
      else split_go (c :: cur) l'
  end.
Definition split (s : string) : list string := split_go [] (chars s).

(** [f"{n:03d}"] for [n >= 0]: the decimal digits of [n], with zeros
    in front up to a width of 3. *)
Definition format_03d (n : nat) : string :=
  let digits := str (Z.of_nat n) in
  of_chars (replicate (3 - String.length digits) "0"%char) +:+ digits.

(** [x in l] together with [l.index(x)]: the position of the first
    occurrence of [x], [None] when [x in l] is false (and [l.index(x)]
    would raise). *)
Fixpoint index {A} `{EqDecision A} (x : A) (l : list A) : option nat :=
  match l with
  | [] => None
  | y :: l' => if decide (y = x) then Some 0%nat else S <$> index x l'
  end.

End Py.
Export Py.

(** ** ElementTree fragments *)

Module ET.

#[warnings="-register-all"]
Inductive element := Element {
  tag : string;
  attrib : gmap string string;
  text : option string;
  children : list element;
}.

(** [e.find(t)]: the first child whose tag is [t]. *)
Definition find (e : element) (t : string) : option element :=
  head (filter (λ c, tag c = t) (children e)).

(** [e.findall(t)]: the children whose tag is [t], in document order. *)
Definition findall (e : element) (t : string) : list element :=
  filter (λ c, tag c = t) (children e).

(** [e.get(k)] and [e.get(k, d)]. *)
Definition get (e : element) (k : string) : option string := attrib e !! k.
Definition get_or (e : element) (k d : string) : string :=
  default d (attrib e !! k).

(** [e.findtext(t, d)]: a matching child without text yields the empty
    string. *)
Definition findtext (e : element) (t d : string) : string :=
  match find e t with
  | Some c => default EmptyString (text c)
  | None => d
  end.

End ET.
Export ET.

(** ** Constants and data model of [main.py] *)

Definition DASH_NS : string := "urn:mpeg:DASH:schema:MPD:2011".
Definition SEA_NS : string := "urn:mpeg:dash:schema:sea:2012".
Definition MAX_CONCURRENT : nat := 15.
Definition batch_size : nat := 30.

(** [f"{{{DASH_NS}}}name"] and [f"{{{SEA_NS}}}name"]. *)
Definition dash (name : string) : string := "{" +:+ DASH_NS +:+ "}" +:+ name.
Definition sea (name : string) : string := "{" +:+ SEA_NS +:+ "}" +:+ name.

(** The dict [_parse_adaptation_set] returns. [label] is the key
    [_download_dash_audio] adds to the selected track: [None] while the
    key is not set, [Some v] once it holds [v], a string or Python's
    [None]. *)
Record track := Track {
  key_url : string;
  iv : bytes;
  init_url : string;
  media_tpl : string;
  segment_times : list Z;
  label : option (option string);
}.

Definition set_label (l : option string) (tr : track) : track :=
  {| key_url := key_url tr; iv := iv tr; init_url := init_url tr;
     media_tpl := media_tpl tr; segment_times := segment_times tr;
     label := Some l |}.

(** What [client.get] does: a response with a status code and a body, or
    an exception. *)
Inductive response :=
| Response (status_code : Z) (content : bytes)
| Failure.

(** The network as one task sees it: the response to the [n]-th request
    the task makes for a URL. *)
Definition network := string → nat → response.

(** The tasks that make requests during a download session: the session
    itself, which asks for the key and then for the init segment, and
    the fetch of the segment at each position of the timeline. A
    request is told apart by its task, its URL and the number of
    requests the task has made for that URL before, so that whatever a
    server answers, in whatever order the requests of the fetches reach
    it, is some session network. *)
Inductive task :=
| Session
| Fetch (position : nat).

Definition session_network := task → network.

(** What a segment fetch does besides returning. *)
Inductive event :=
| Get (url : string)
| Sleep (seconds : Z).

(** The lines [_download_dash_audio] prints. *)
Inductive msg :=
| MsgNoAudioTrack
| MsgTrack (label : option string) (n_segments : nat)
| MsgFetchKey
| MsgHttpError (status_code : Z)
| MsgException
| MsgFetchInit
| MsgFetchSegments
| MsgProgress (done n_segments : nat)
| MsgDownloaded (n_segments : nat) (size : nat)
| MsgConvert
| MsgFfmpegError
| MsgSaved (size : nat).

(** What a session leaves behind: the value returned (or the exception
    raised) to [download_audio], the lines printed, the content of the
    temporary file handed to ffmpeg, and the file at [dest] once ffmpeg
    has run, if there is one. Both are [None] for a session that does
    not get as far as ffmpeg, which writes neither file. *)
Record outcome := Outcome {
  returned : result bool;
  stdout : list msg;
  fmp4 : option bytes;
  flac : option bytes;
}.

(** What a path names for [_parse_args]: a text file that [read_text]
    reads, or something it raises on (a directory, a file that is not
    UTF-8). *)
Inductive file :=
| Text (content : string)
| Unreadable.

(** What [on_response] reads off a response of the page:
    [response.url], [response.headers.get("content-type")] and
    [response.status]. *)
Record page_response := PageResponse {
  rurl : string;
  content_type : option string;
  status : Z;
}.

(** ** Data model of [transcribe.py] and [convert_mp3.py] *)

(** An exception as [_is_retryable_error] reads it: the name of its
    type, [str(exc)], its [status_code] when it has one that is an int,
    and its [__cause__]. The chain of causes is finite. *)
#[warnings="-register-all"]
Inductive exception := Exc {
  type_name : string;
  message : string;
  status_code : option Z;
  cause : option exception;
}.

(** A segment of a transcription, the dict with the keys [start], [end]
    and [text]; [num] is the type of the timestamps. *)
Record segment {num : Type} := Segment {
  seg_start : num;
  seg_end : num;
  seg_text : string;
}.
Arguments segment : clear implicits.

(** What the transcription service returns: its [segments], when it has
    the attribute, each a dict that may lack a key, and its [text]. *)
Record api_segment {num : Type} := ApiSegment {
  api_start : option num;
  api_end : option num;
  api_text : option string;
}.
Arguments api_segment : clear implicits.

Record transcription {num : Type} := Transcription {
  segments : option (list (api_segment num));
  text_ : string;
}.
Arguments transcription : clear implicits.

(** What [_transcribe_with_retry] does besides returning: a call of
    [_transcribe_single], or [time.sleep]. *)
Inductive action :=
| Transcribe (part_path : string)
| TimeSleep (seconds : Z).

Definition MAX_PART_RETRIES : nat := 3.
Definition RETRY_BASE_DELAY : Z := 2.
Definition DEFAULT_BITRATE : Z := 192.

Definition HALLUCINATION_PATTERNS : list string :=
  ["[musica]"; "[applausi]"; "[music]"; "[applause]";
   "sottotitoli"; "sottotitoli a cura di";
   "grazie per aver guardato"; "iscriviti al canale"].

(** How [main] of [convert_mp3.py] ends: without a FLAC file to
    convert, with its count of converted files, or with an exception
    ([int] on the bitrate, [unlink] on a file that is gone). *)
Inductive ending :=
| NoFlac
| Completed (ok_count total : nat)
| Crashed.

(** ** Block-cipher plumbing of the [cryptography] package

    The AES block primitive itself is a variable of the pipeline section
    below; the block size, the key sizes [algorithms.AES] accepts, the
    splitting of the data into blocks and the chaining are modelled
    here. *)

Module Cbc.

Definition block_size : nat := 16.

#[global] Instance byte_eq_dec : EqDecision byte := Byte.byte_eq_dec.

(** The bits of a byte, as [Byte.to_bits] gives them. *)
Abbreviation bits :=
  (bool * (bool * (bool * (bool * (bool * (bool * (bool * bool)))))))%type.

Definition xor_bits (a b : bits) : bits :=
  let '(a0, (a1, (a2, (a3, (a4, (a5, (a6, a7))))))) := a in
  let '(b0, (b1, (b2, (b3, (b4, (b5, (b6, b7))))))) := b in
  (xorb a0 b0, (xorb a1 b1, (xorb a2 b2, (xorb a3 b3,
    (xorb a4 b4, (xorb a5 b5, (xorb a6 b6, xorb a7 b7))))))).

Definition byte_xor (a b : byte) : byte :=
  Byte.of_bits (xor_bits (Byte.to_bits a) (Byte.to_bits b)).

Definition xor_bytes (a b : bytes) : bytes := zip_with byte_xor a b.

(** [algorithms.AES(key)] accepts 128, 192 and 256 bit keys. *)
Definition valid_key (key : bytes) : bool :=
  let n := length key in
  ((n =? 16) || (n =? 24) || (n =? 32))%nat.

Unset Equations With Funext.

(** The data as consecutive blocks of 16 bytes (the last one shorter
    when the length is not a multiple of 16). *)
Equations? blocks (data : bytes) : list bytes by wf (length data) lt :=
  blocks [] := [];
  blocks (b :: data) :=
    take block_size (b :: data) :: blocks (drop block_size (b :: data)).
Proof. rewrite length_drop. cbn. lia. Qed.

End Cbc.
Export Cbc.

(** ** Fixtures

    Stand-ins for the external collaborators, used to run the pipeline on
    concrete inputs, and the concrete inputs themselves. *)

Module Fixture.

(** A decimal reader for [int]: an optional minus sign and decimal
    digits. *)
Definition digit (c : ascii) : option Z :=
  let n := N_of_ascii c in
  if ((48 <=? n) && (n <=? 57))%N then Some (Z.of_N (n - 48)) else None.

Fixpoint digits (acc : Z) (s : string) : result Z :=
  match s with
  | EmptyString => Ok acc
  | String c s' =>
      match digit c with
      | Some v => digits (10 * acc + v) s'
      | None => Raise ValueError
      end
  end.

Definition dec_int (s : string) : result Z :=
  match s with
  | EmptyString => Raise ValueError
  | String "-" (String c s') => Z.opp <$> digits 0 (String c s')
  | String "-" EmptyString => Raise ValueError
  | _ => digits 0 s
  end.

(** A block primitive that is its own inverse: the block xored with
    the first bytes of the key. *)
Definition xor_block (key block : bytes) : bytes := xor_bytes block key.

(** The identity for [html.unescape], right on text without character
    references. *)
Definition plain_text (s : string) : string := s.

(** An ffmpeg that always succeeds and leaves its input at [dest]; one
    that exits with code 1 and leaves the first bytes of its input; and
    one that is not installed. *)
Definition copy_ffmpeg (input : bytes) : result Z * option bytes :=
  (Ok 0, Some input).
Definition broken_ffmpeg (input : bytes) : result Z * option bytes :=
  (Ok 1, Some (take 4 input)).
Definition no_ffmpeg (input : bytes) : result Z * option bytes :=
  (Raise OSError, None).

(** Manifest elements. *)
Definition elem (tag : string) (attrs : list (string * string))
    (text : option string) (children : list element) : element :=
  Element tag (list_to_map attrs) text children.

(** [<S d=.. r=..>] and [<S d=..>] elements. *)
Definition S_elem (d r : string) : element :=
  elem (dash "S") [("d", d); ("r", r)] None [].
Definition S_elem_d (d : string) : element :=
  elem (dash "S") [("d", d)] None [].

Definition segment_template (s_elems : list element) : element :=
  elem (dash "SegmentTemplate")
       [("initialization", "init-$RepresentationID$.mp4");
        ("media", "seg-$RepresentationID$-$Time$.m4s")] None
       [elem (dash "SegmentTimeline") [] None s_elems].

Definition representation : element :=
  elem (dash "Representation") [("id", "a1")] None [].

Definition protection (attrs : list (string * string)) : element :=
  elem (dash "ContentProtection") [] None
       [elem (sea "CryptoPeriod") attrs None []].

Definition label_elem (s : string) : element :=
  elem (dash "Label") [] (Some s) [].

Definition adaptation_set (content_type : string) (first : list element)
    (s_elems : list element) : element :=
  elem (dash "AdaptationSet") [("contentType", content_type)] None
       (first ++ [segment_template s_elems; representation]).

Definition period_of (sets : list element) : element :=
  elem (dash "Period") [] None sets.

Definition manifest (sets : list element) : element :=
  elem (dash "MPD") [] None
       [elem (dash "BaseURL") [] (Some "https://h/") []; period_of sets].

(** A key and an IV; the CryptoPeriod below has no IV attribute, so
    the IV of its track is 16 zero bytes. *)
Definition key0 : bytes := replicate 16 x2a.
Definition iv0 : bytes := replicate 16 x00.
Definition crypto_period0 : list (string * string) :=
  [("keyUriTemplate", "https://h/key")].

(** Audio sets: without a Label, labelled OriginalAudio (two of them),
    with a 16-byte IV, with a 2-byte IV, without ContentProtection,
    with a single segment; and a video set. *)
Definition unlabelled : element :=
  adaptation_set "audio" [protection crypto_period0] [S_elem "4" "2"].
Definition original : element :=
  adaptation_set "audio"
    [label_elem "OriginalAudio"; protection crypto_period0] [S_elem "4" "2"].
Definition with_iv : element :=
  adaptation_set "audio"
    [protection (("IV", "0x000102030405060708090a0b0c0d0e0f")
                 :: crypto_period0)] [S_elem "4" "2"].
Definition short_iv : element :=
  adaptation_set "audio"
    [protection (("IV", "0x0011") :: crypto_period0)] [S_elem "4" "2"].
Definition unprotected : element :=
  adaptation_set "audio" [] [S_elem "4" "2"].
Definition single : element :=
  adaptation_set "audio" [protection crypto_period0] [S_elem_d "4"].
Definition video : element :=
  adaptation_set "video" [protection crypto_period0] [S_elem "4" "2"].

(** The tracks these sets are parsed to. *)
Definition track_of (times : list Z) (l : option (option string)) : track :=
  Track "https://h/key" iv0 "https://h/init-a1.mp4"
        "https://h/seg-a1-$Time$.m4s" times l.

(** A network given by the responses each URL gives in turn; any other
    request is answered with a 404. *)
Definition serve (routes : gmap string (list response)) : network :=
  λ url n, default (Response 404 []) (routes !! url ≫= (.!! n)).

(** The session network in which every task gets what [net] gives. *)
Definition alike (net : network) : session_network := λ _, net.

(** Under [key0] and [iv0] one block of [x2a] decrypts to 16 zero
    bytes, which the unpadding leaves alone; one block of [x3a]
    decrypts to 16 bytes of padding, that is, to the empty
    plaintext; one block of [x2b] decrypts to 15 bytes [x01]. *)
Definition routes0 : gmap string (list response) :=
  list_to_map [("https://h/key", [Response 200 key0]);
               ("https://h/init-a1.mp4", [Response 200 (replicate 16 x2a)])].

(** Segment 0 arrives at once, segment 4 on the third attempt, after a
    503 and an exception, segment 8 never. *)
Definition net_flaky : network :=
  serve (<["https://h/seg-a1-0.m4s" := [Response 200 (replicate 16 x2b)]]>
        (<["https://h/seg-a1-4.m4s" :=
             [Response 503 []; Failure; Response 200 (replicate 16 x2a)]]>
         routes0)).

(** Two networks whose init segment has an empty body, so that no block
    is ever handed to the cipher. In the first the only segment is
    answered with a 503 each time; in the second it arrives with an
    empty body, which decrypts to the empty plaintext. *)
Definition routes1 : gmap string (list response) :=
  list_to_map [("https://h/key", [Response 200 key0]);
               ("https://h/init-a1.mp4", [Response 200 []])].

Definition net_missing : network :=
  serve (<["https://h/seg-a1-0.m4s" :=
             [Response 503 []; Response 503 []; Response 503 []]]>
         routes1).


(** Completion orders: in the order of the requests, and in the
    reverse order for a batch of three. *)
Definition in_order (n : nat) : nat → list nat := λ _, seq 0 n.
Definition reversed3 : nat → list nat := λ _, [2; 1; 0]%nat.

(** A decoder for [resp.text] that reads every byte as one character,
    and a network with a page that is not a manifest and a manifest. *)
Definition latin1 (content : bytes) : result string :=
  Ok (string_of_list_byte content).

Definition net_pages : network :=
  serve (list_to_map
           [("https://h/video.mp4",
             [Response 200 (list_byte_of_string "ftyp")]);
            ("https://h/manifest",
             [Response 200 (list_byte_of_string "<?xml?><MPD></MPD>")])]).

(** An encoder that fails on input that starts with a zero byte and
    copies any other input, MP3 paths in a directory of their own, and a
    directory of two FLAC files, the second of which cannot be
    converted. *)
Definition copy_lame (input : option bytes) (bitrate : Z) : option bytes :=
  match input with
  | Some (x00 :: _) | None => None
  | Some content => Some content
  end.
Definition in_mp3_dir (flac_path : string) : string := "mp3/" +:+ flac_path.
Definition two_flacs : gmap string bytes :=
  list_to_map [("a.flac", [x01; x02]); ("b.flac", [x00; x02])].


(** An audio set whose key has the URL of its init segment, and two
    networks for it. In both the first response for that URL is the
    key; the second is an init segment with an empty body in the first
    network, and a 404 in the second. *)
Definition key_at_init : element :=
  adaptation_set "audio"
    [protection [("keyUriTemplate", "https://h/init-a1.mp4")]] [S_elem_d "4"].
Definition net_twice : network :=
  serve (list_to_map
           [("https://h/init-a1.mp4", [Response 200 key0; Response 200 []])]).
Definition net_once : network :=
  serve (list_to_map [("https://h/init-a1.mp4", [Response 200 key0])]).

(** A network on which a request without a URL raises, as [client.get]
    does. *)
Definition net_no_url : network :=
  λ url n, if decide (url = EmptyString) then Failure else net_flaky url n.



End Fixture.

(** ** The pipeline *)

Section Pipeline.

(** [int(s)] for a string [s]. *)
Variable py_int : string → result Z.
(** [html.unescape]. *)
Variable unescape : string → string.
(** The AES block decryption of the [cryptography] package: key and
    16-byte block to 16-byte block. *)
Variable aes_decrypt_block : bytes → bytes → bytes.
(** The ffmpeg run on the assembled file: what [subprocess.run] returns
    as [proc.returncode], or the exception it raises, together with the
    file at [dest] after the run, if there is one. *)
Variable ffmpeg : bytes → result Z * option bytes.

(** [int(v)] where [v] is what [Element.get] returned. *)
Definition int (v : option string) : result Z :=
  match v with
  | Some s => py_int s
  | None => Raise TypeError
  end.

(** *** Segment timeline ([_parse_adaptation_set], the loop over [S]) *)

(** [for _ in range(n): times.append(t); t += d]. *)
Fixpoint emit (n : nat) (d : Z) (st : list Z * Z) : list Z * Z :=
  match n with
  | O => st
  | S n' => emit n' d (st.1 ++ [st.2], st.2 + d)
  end.

(** One iteration of [for s_elem in timeline.findall(S)]. *)
Definition timeline_step (st : list Z * Z) (s_elem : element)
  : result (list Z * Z) :=
  d ← int (get s_elem "d");
  r ← int (Some (get_or s_elem "r" "0"));
  Ok (emit (Z.to_nat (r + 1)) d st).

Definition segment_timeline (s_elems : list element) : result (list Z) :=
  fst <$> for_each timeline_step s_elems ([], 0).

(** *** [_parse_adaptation_set] *)

(** [cp] and [crypto]: the [CryptoPeriod] of the [ContentProtection]
    child, when both exist. *)
Definition crypto_period (adapt : element) : option element :=
  cp ← find adapt (dash "ContentProtection");
  find cp (sea "CryptoPeriod").

Definition _parse_adaptation_set (adapt : element) (base_url : string)
  : result track :=
  let crypto := crypto_period adapt in
  let key_url :=
    match crypto with
    | Some c => unescape (get_or c "keyUriTemplate" "")
    | None => EmptyString
    end in
  let iv_hex :=
    match crypto with
    | Some c => get_or c "IV" "0x00000000000000000000000000000000"
    | None => EmptyString
    end in
  iv ← fromhex (replace iv_hex "0x" "");
  seg_tpl ← require (find adapt (dash "SegmentTemplate"));
  let init_tpl := unescape (get_or seg_tpl "initialization" "") in
  let media_tpl := unescape (get_or seg_tpl "media" "") in
  rep ← require (find adapt (dash "Representation"));
  let rep_id := get_or rep "id" "" in
  timeline ← require (find seg_tpl (dash "SegmentTimeline"));
  times ← segment_timeline (findall timeline (dash "S"));
  Ok {| key_url := key_url;
        iv := iv;
        init_url := base_url +:+ replace init_tpl "$RepresentationID$" rep_id;
        media_tpl := base_url +:+ replace media_tpl "$RepresentationID$" rep_id;
        segment_times := times;
        label := None |}.

(** *** [_decrypt] *)

(** CBC over the blocks of the ciphertext: each block is decrypted and
    xored with the previous ciphertext block, the first one with the
    IV. *)
Fixpoint cbc_decrypt_blocks (key prev : bytes) (cs : list bytes)
  : list bytes :=
  match cs with
  | [] => []
  | c :: cs' =>
      xor_bytes (aes_decrypt_block key c) prev :: cbc_decrypt_blocks key c cs'
  end.

(** [Cipher(algorithms.AES(key), modes.CBC(iv))], [dec.update(data) +
    dec.finalize()]: a [ValueError] for a key of the wrong size, an IV
    that is not one block, or data that is not a whole number of
    blocks. *)
Definition cbc_decrypt (key iv data : bytes) : result bytes :=
  if negb (valid_key key) then Raise ValueError
  else if negb (length iv =? block_size)%nat then Raise ValueError
  else if negb (length data mod block_size =? 0)%nat then Raise ValueError
  else Ok (concat (cbc_decrypt_blocks key iv (blocks data))).

(** The manual PKCS7 unpadding. *)
Definition unpad (result : bytes) : bytes :=
  match last result with
  | None => result
  | Some b =>
      let pad := byte_val b in
      if (1 <=? pad) && (pad <=? 16)
         && forallb (λ b', byte_val b' =? pad)
                    (slice_last (Z.to_nat pad) result)
      then slice_but_last (Z.to_nat pad) result
      else result
  end.

Definition _decrypt (data key iv : bytes) : result bytes :=
  unpad <$> cbc_decrypt key iv data.

(** *** [fetch_segment] (the closure inside [_download_dash_audio]) *)

(** [for attempt in attempts: ...; return None], for one segment URL.
    [responses] gives the response to each attempt. An exception of
    [client.get] or of [_decrypt] is caught by [except Exception]. *)
Fixpoint fetch_attempts (responses : nat → response) (seg_url : string)
    (key iv : bytes) (attempts : list nat) : option bytes * list event :=
  match attempts with
  | [] => (None, [])
  | attempt :: rest =>
      let next := fetch_attempts responses seg_url key iv rest in
      let except :=
        (next.1, Get seg_url
                 :: (if (attempt <? 2)%nat then [Sleep 1] else []) ++ next.2) in
      match responses attempt with
      | Response status_code content =>
          if status_code =? 200 then
            match _decrypt content key iv with
            | Ok data => (Some data, [Get seg_url])
            | Raise _ => except
            end
          else (next.1, Get seg_url :: next.2)
      | Failure => except
      end
  end.

Definition fetch_segment (net : network) (audio_track : track)
    (key iv : bytes) (seg_time : Z) : option bytes * list event :=
  let seg_url := replace (media_tpl audio_track) "$Time$" (str seg_time) in
  fetch_attempts (net seg_url) seg_url key iv (range 0 3 1).

(** *** The write loop of [_download_dash_audio] *)

(** [for data in results: if data: f.write(data)]. *)
Definition write_results (f : bytes) (results : list (option bytes)) : bytes :=
  foldl (λ f data,
           match data with
           | Some (b :: data') => f ++ b :: data'
           | _ => f
           end) f results.

(** One iteration of [for batch_start in range(0, n_segments,
    batch_size)]; [sched batch_start] is the order in which the fetches
    of that batch complete, and the fetch of the [j]-th time of the
    batch is the task at position [batch_start + j]. The state is the
    file content and the progress lines printed. *)
Definition batch_step (net : session_network) (sched : nat → list nat)
    (audio_track : track) (key iv : bytes) (n_segments : nat)
    (st : bytes * list msg) (batch_start : nat) : option (bytes * list msg) :=
  let batch_times :=
    slice batch_start (batch_start + batch_size)%nat
          (segment_times audio_track) in
  let fetch j := fetch_segment (net (Fetch (batch_start + j)%nat))
                               audio_track key iv in
  results ← gather (sched batch_start) (imap fetch batch_times);
  let f := write_results st.1 (fst <$> results) in
  let done := Nat.min (batch_start + batch_size) n_segments in
  Some (f, st.2 ++ [MsgProgress done n_segments]).

(** [with open(temp_fmp4, "wb") as f: f.write(init_data); for ...]. *)
Definition write_segments (net : session_network) (sched : nat → list nat)
    (audio_track : track) (key iv init_data : bytes)
  : option (bytes * list msg) :=
  let n_segments := length (segment_times audio_track) in
  for_each (batch_step net sched audio_track key iv n_segments)
           (range 0 n_segments batch_size) (init_data, []).

(** *** Track selection of [_download_dash_audio] *)

(** [label_el.text if label_el is not None else "audio"]: the text of
    the [Label] child (Python's [None] for a child without text), or
    ["audio"] without such a child. *)
Definition label_of (adapt : element) : option string :=
  match find adapt (dash "Label") with
  | Some label_el => text label_el
  | None => Some "audio"
  end.

(** One iteration of [for adapt in period.findall(AdaptationSet)]. *)
Definition select_step (base_url : string) (audio_track : option track)
    (adapt : element) : result (option track) :=
  if decide (get adapt "contentType" ≠ Some "audio") then Ok audio_track
  else
    let label := label_of adapt in
    track ← _parse_adaptation_set adapt base_url;
    if negb (bool_decide (is_Some audio_track))
       || bool_decide (label = Some "OriginalAudio")
    then Ok (Some (set_label label track))
    else Ok audio_track.

Definition select_audio_track (period : element) (base_url : string)
  : result (option track) :=
  for_each (select_step base_url) (findall period (dash "AdaptationSet")) None.

(** *** [_download_dash_audio] *)

(** The session asks for the key and then for the init segment: the
    init request is its second request for the URL when the two URLs
    are the same, and its first otherwise. *)
Definition init_request (audio_track : track) : nat :=
  length (filter (.= init_url audio_track) [key_url audio_track]).

(** [root] is the parsed manifest, [net] the network of the session
    and [sched] the completion order of the fetches of each batch. The
    key request is inside a [try], the init request and the ffmpeg run
    are not; the temporary file is unlinked once the run has returned,
    [dest] never is, and [dest.stat()] raises when ffmpeg exited with
    code 0 without leaving a file. *)
Definition _download_dash_audio (net : session_network)
    (sched : nat → list nat) (root : element) : option outcome :=
  let base_url := findtext root (dash "BaseURL") "" in
  match period ← require (find root (dash "Period"));
        select_audio_track period base_url with
  | Raise e => Some (Outcome (Raise e) [] None None)
  | Ok None => Some (Outcome (Ok false) [MsgNoAudioTrack] None None)
  | Ok (Some audio_track) =>
      let n_segments := length (segment_times audio_track) in
      let out := [MsgTrack (mjoin (label audio_track)) n_segments; MsgFetchKey] in
      match net Session (key_url audio_track) 0%nat with
      | Failure => Some (Outcome (Ok false) (out ++ [MsgException]) None None)
      | Response status_code key =>
          if negb (status_code =? 200)
          then Some (Outcome (Ok false) (out ++ [MsgHttpError status_code])
                             None None)
          else
            let iv := iv audio_track in
            let out := out ++ [MsgFetchInit] in
            match net Session (init_url audio_track)
                      (init_request audio_track) with
            | Failure => Some (Outcome (Raise TransportError) out None None)
            | Response status_code content =>
                if negb (status_code =? 200)
                then Some (Outcome (Ok false)
                                   (out ++ [MsgHttpError status_code])
                                   None None)
                else
                  match _decrypt content key iv with
                  | Raise e => Some (Outcome (Raise e) out None None)
                  | Ok init_data =>
                      written ← write_segments net sched audio_track
                                               key iv init_data;
                      let f := written.1 in
                      let out :=
                        out ++ [MsgFetchSegments] ++ written.2
                            ++ [MsgDownloaded n_segments (length f);
                                MsgConvert] in
                      let (proc, dest) := ffmpeg f in
                      match proc with
                      | Raise e => Some (Outcome (Raise e) out (Some f) dest)
                      | Ok returncode =>
                          if negb (returncode =? 0)
                          then Some (Outcome (Ok false)
                                             (out ++ [MsgFfmpegError])
                                             (Some f) dest)
                          else
                            match dest with
                            | None =>
                                Some (Outcome (Raise OSError) out
                                              (Some f) None)
                            | Some converted =>
                                Some (Outcome
                                        (Ok true)
                                        (out ++ [MsgSaved (length converted)])
                                        (Some f) (Some converted))
                            end
                      end
                  end
            end
      end
  end.

(** ** The helpers of [main.py] *)

(** *** [_sanitize_filename] *)

(** The characters of the class [re.sub] replaces: the angle brackets,
    the colon, the double quote (34), the slash, the backslash (92),
    the bar, the question mark and the star. *)
Definition reserved (c : ascii) : bool :=
  bool_decide
    (c ∈ ["<"; ">"; ":"; "034"; "/"; "092"; "|"; "?"; "*"]%char).

Definition _sanitize_filename (name : string) : string :=
  let name :=
    of_chars ((λ c, if reserved c then "_"%char else c) <$> chars name) in
  let name := strip_chars name ". " in
  match name with
  | EmptyString => "audio"
  | _ => slice_to 200 name
  end.

(** *** [_parse_args] *)

(** The [while] loop after [--urls]: [fuel] bounds its iterations, and
    [len(args)] of them are enough to leave it. [args !! idx] is [None]
    when [idx < len(args)] is false. *)
Fixpoint collect_urls (fuel : nat) (args : list string) (idx : nat)
    (urls : list string) : list string :=
  match fuel with
  | O => urls
  | S fuel' =>
      match args !! idx with
      | Some arg =>
          if negb (startswith arg "--")
          then collect_urls fuel' args (idx + 1)%nat (urls ++ [arg])
          else urls
      | None => urls
      end
  end.

(** The generator over the lines of the URL file. *)
Definition file_urls (content : string) : list string :=
  strip
    <$> filter (λ line, strip line ≠ EmptyString
                        ∧ startswith (strip line) "#" = false)
               (splitlines content).

(** [args] is [sys.argv[1:]] and [fs] what the paths name. [None] is
    the exception of [read_text]. *)
Definition _parse_args (args : list string) (fs : string → option file)
  : option (list string) :=
  let urls :=
    match index "--urls" args with
    | Some i => collect_urls (length args) args (i + 1)%nat []
    | None => []
    end in
  match index "--urls-file" args with
  | Some i =>
      match args !! (i + 1)%nat with
      | Some path =>
          match fs path with
          | Some (Text content) => Some (urls ++ file_urls content)
          | Some Unreadable => None
          | None => Some urls
          end
      | None => Some urls
      end
  | None => Some urls
  end.

(** *** [on_response] (the closure inside [download_audio])

    [captured] is the list the closure appends to. *)
Definition on_response (captured : list (string * string))
    (response : page_response) : list (string * string) :=
  let ct := lower (default EmptyString (content_type response)) in
  if bool_decide (status response ∈ [200; 206]) then
    if existsb (λ x, contains x ct) ["dash+xml"; "video/"; "octet-stream"]
       || existsb (λ x, contains x (lower (rurl response)))
                  ["videomanifest"; "tempauth"; ".mpd"]
    then
      if negb (contains "stream.aspx" (rurl response))
      then captured ++ [(rurl response, ct)]
      else captured
    else captured
  else captured.

(** *** The manifest search of [download_audio] *)

(** [resp.text]: the body decoded, or an exception. *)
Variable decode : bytes → result string.

(** [for cap_url, cap_ct in captured]: [seen] holds the URLs requested
    so far, so that a URL captured twice is requested a second time.
    The result is [mpd_content]. *)
Fixpoint find_manifest (net : network) (seen : list string)
    (captured : list (string * string)) : option string :=
  match captured with
  | [] => None
  | (cap_url, cap_ct) :: rest =>
      let continue := find_manifest net (cap_url :: seen) rest in
      match net cap_url (length (filter (.= cap_url) seen)) with
      | Response status_code content =>
          if negb (status_code =? 200) then continue
          else
            match decode content with
            | Ok text =>
                if contains "<MPD" (slice_to 500 text) then Some text
                else continue
            | Raise _ => continue
            end
      | Failure => continue
      end
  end.

(** ** [transcribe.py] *)

(** The type of the timestamps (Python floats) with the operations the
    code uses on them, and the two thresholds read from the
    environment. *)
Variable num : Type.
Variable num_add num_sub : num → num → num.
Variable num_lt : num → num → bool.
Variable HALLUCINATION_MAX_WORDS : Z.
Variable HALLUCINATION_MIN_DURATION : num.

(** *** [_is_retryable_error] *)

Fixpoint _is_retryable_error (exc : exception) : bool :=
  let error_name := lower (type_name exc) in
  let error_msg := lower (message exc) in
  if existsb (λ ind, contains ind error_name || contains ind error_msg)
             ["connection"; "timeout"; "remotedisconnected";
              "connectionreset"]
  then true
  else if match status_code exc with
          | Some code => bool_decide (code ∈ [500; 502; 503])
          | None => false
          end
  then true
  else match cause exc with
       | Some c => _is_retryable_error c
       | None => false
       end.

(** *** [_transcribe_single]

    [zero] is the float 0.0 and [transcription] what the service
    returned; the call itself, which may raise, is left to the caller. *)
Definition _transcribe_single (zero : num) (transcription : transcription num)
  : list (segment num) :=
  match segments transcription with
  | Some (seg :: segs) =>
      (λ seg, {| seg_start := default zero (api_start seg);
                 seg_end := default zero (api_end seg);
                 seg_text := strip (default EmptyString (api_text seg)) |})
        <$> seg :: segs
  | _ =>
      [{| seg_start := zero; seg_end := zero;
          seg_text := strip (text_ transcription) |}]
  end.

(** *** [_transcribe_with_retry]

    [single n] is what the call of [_transcribe_single] on the part
    does after [n] earlier calls: it returns segments or raises. The
    result is what the function returns, [None] when the loop runs out,
    or the exception it raises. What it prints is left out. *)
Fixpoint retry_attempts (single : nat → exception + list (segment num))
    (part_path : string) (attempts : list nat)
  : (exception + option (list (segment num))) * list action :=
  match attempts with
  | [] => (inr None, [])
  | attempt :: rest =>
      match single (attempt - 1)%nat with
      | inr segments => (inr (Some segments), [Transcribe part_path])
      | inl e =>
          if (attempt <? MAX_PART_RETRIES)%nat && _is_retryable_error e then
            let delay := RETRY_BASE_DELAY * 2 ^ (Z.of_nat attempt - 1) in
            let next := retry_attempts single part_path rest in
            (next.1, Transcribe part_path :: TimeSleep delay :: next.2)
          else (inl e, [Transcribe part_path])
      end
  end.

Definition _transcribe_with_retry
    (single : nat → exception + list (segment num)) (part_path : string)
  : (exception + option (list (segment num))) * list action :=
  retry_attempts single part_path (range 1 (MAX_PART_RETRIES + 1) 1).

(** *** [_is_hallucination] and [_filter_hallucinations] *)

Definition _is_hallucination (seg : segment num) : bool :=
  let duration := num_sub (seg_end seg) (seg_start seg) in
  let words := split (strip (seg_text seg)) in
  if num_lt duration HALLUCINATION_MIN_DURATION
     && (HALLUCINATION_MAX_WORDS <? Z.of_nat (length words))
  then true
  else if bool_decide (strip (seg_text seg) = EmptyString) then true
  else
    let text_lower := strip (lower (seg_text seg)) in
    existsb (λ p, contains p text_lower) HALLUCINATION_PATTERNS.

Definition _filter_hallucinations (segments : list (segment num))
  : list (segment num) * Z :=
  let valid := List.filter (λ s, negb (_is_hallucination s)) segments in
  let filtered := Z.of_nat (length segments) - Z.of_nat (length valid) in
  (valid, filtered).

(** *** [_split_and_transcribe]

    [parts] is what [split_audio] returned, [fs] the paths that exist
    when it has, [single part_path] the calls of [_transcribe_single]
    on a part and [get_duration] what ffprobe says, or its exception. *)

(** [seg["start"] += time_offset; seg["end"] += time_offset]. *)
Definition shift (time_offset : num) (seg : segment num) : segment num :=
  {| seg_start := num_add (seg_start seg) time_offset;
     seg_end := num_add (seg_end seg) time_offset;
     seg_text := seg_text seg |}.

(** [max] over a generator that is not empty: the first of the largest
    items. *)
Definition py_max (first : num) (rest : list num) : num :=
  foldl (λ largest item, if num_lt largest item then item else largest)
        first rest.

(** The body of the [try]: the loop over the parts. A part for which
    [_transcribe_with_retry] returns [None] makes [for seg in
    part_segments] raise a [TypeError]. *)
Fixpoint transcribe_parts
    (single : string → nat → exception + list (segment num))
    (get_duration : string → exception + num)
    (parts : list string) (all_segments : list (segment num))
    (time_offset : num) : exception + list (segment num) :=
  match parts with
  | [] => inr all_segments
  | part_path :: rest =>
      match (_transcribe_with_retry (single part_path) part_path).1 with
      | inl e => inl e
      | inr None => inl (Exc "TypeError" "'NoneType' object is not iterable"
                              None None)
      | inr (Some part_segments) =>
          let shifted := shift time_offset <$> part_segments in
          let all_segments := all_segments ++ shifted in
          match shifted with
          | [] =>
              match get_duration part_path with
              | inl e => inl e
              | inr d =>
                  transcribe_parts single get_duration rest all_segments
                                   (num_add time_offset d)
              end
          | s :: shifted' =>
              let part_duration :=
                num_sub (py_max (seg_end s) (seg_end <$> shifted'))
                        time_offset in
              transcribe_parts single get_duration rest all_segments
                               (num_add time_offset part_duration)
          end
      end
  end.

(** The [finally]: every part that exists and is not the file itself
    is unlinked. *)
Definition unlink_parts (file_path : string) (parts : list string)
    (fs : gset string) : gset string :=
  foldl (λ fs part_path,
           if bool_decide (part_path ∈ fs ∧ part_path ≠ file_path)
           then fs ∖ {[part_path]} else fs) fs parts.

(** [zero] is the float 0.0. The result is what the function returns or
    raises, and the paths that exist afterwards. *)
Definition _split_and_transcribe (zero : num)
    (single : string → nat → exception + list (segment num))
    (get_duration : string → exception + num)
    (file_path : string) (parts : list string) (fs : gset string)
  : (exception + list (segment num)) * gset string :=
  (transcribe_parts single get_duration parts [] zero,
   unlink_parts file_path parts fs).

(** *** The part files of [split_audio] and the files [do_transcribe]
    takes up

    A FLAC file of the downloads directory is given by its stem. *)

(** The stem of the part [split_audio] writes when it has [n] parts:
    [f"{input_path.stem}_part{len(parts):03d}"]. *)
Definition part_stem (stem : string) (n : nat) : string :=
  stem +:+ "_part" +:+ format_03d n.

(** The loop of [do_transcribe] that fills [to_transcribe]:
    [transcribed] holds the stems whose transcription JSON exists. *)
Definition to_transcribe (flac_files : list string) (transcribed : gset string)
  : list string :=
  filter (λ stem, endswith stem "_part" = false ∧ stem ∉ transcribed)
         flac_files.

(** ** [convert_mp3.py] *)

(** [MP3_DIR / flac_path.with_suffix(".mp3").name]. *)
Variable mp3_path_of : string → string.
(** The ffmpeg run of [convert_flac_to_mp3] on what the FLAC path
    names, at a bitrate: the MP3 file when the return code is 0.
    [_find_ffmpeg] is taken to find ffmpeg. *)
Variable lame : option bytes → Z → option bytes.

(** [fs] maps the paths that exist to the content of their files. The
    result is the value returned and the files afterwards. *)
Definition convert_flac_to_mp3 (fs : gmap string bytes) (flac_path : string)
    (bitrate : Z) : bool * gmap string bytes :=
  let mp3_path := mp3_path_of flac_path in
  match fs !! mp3_path with
  | Some (_ :: _) => (true, fs)
  | _ =>
      match lame (fs !! flac_path) bitrate with
      | Some mp3 => (true, <[mp3_path := mp3]> fs)
      | None => (false, delete mp3_path fs)
      end
  end.

(** One iteration of [for i, flac_file in enumerate(flac_files, 1)];
    [None] is the exception of [flac_file.unlink()] on a path that does
    not exist. *)
Definition convert_step (delete_flac : bool) (bitrate : Z)
    (st : nat * gmap string bytes) (flac_file : string)
  : option (nat * gmap string bytes) :=
  let '(success, fs) := convert_flac_to_mp3 st.2 flac_file bitrate in
  if success then
    if delete_flac then
      match fs !! flac_file with
      | Some _ => Some (st.1 + 1, delete flac_file fs)%nat
      | None => None
      end
    else Some (st.1 + 1, fs)%nat
  else Some (st.1, fs).

(** [main] of [convert_mp3.py]: [args] is [sys.argv[1:]], [flac_files]
    the sorted result of the glob and [fs] the files. The result is how
    it ends and, unless it crashed, the files afterwards. *)
Definition convert_mp3_main (args : list string) (flac_files : list string)
    (fs : gmap string bytes) : ending * option (gmap string bytes) :=
  let bitrate :=
    match index "--bitrate" args with
    | Some i =>
        match args !! (i + 1)%nat with
        | Some arg => py_int arg
        | None => Ok DEFAULT_BITRATE
        end
    | None => Ok DEFAULT_BITRATE
    end in
  match bitrate with
  | Raise _ => (Crashed, None)
  | Ok bitrate =>
      let delete_flac := bool_decide ("--delete" ∈ args) in
      match flac_files with
      | [] => (NoFlac, Some fs)
      | _ =>
          match for_each (convert_step delete_flac bitrate) flac_files
                         (0%nat, fs) with
          | Some (ok_count, fs') =>
              (Completed ok_count (length flac_files), Some fs')
          | None => (Crashed, None)
          end
      end
  end.

(** ** Vocabulary of the properties *)

(** The AES block encryption, the inverse of [aes_decrypt_block]. *)
Variable aes_encrypt_block : bytes → bytes → bytes.

(** A timeline entry [(d, r)] read off an [S] element. *)
Definition parses_to (s_elem : element) (entry : Z * Z) : Prop :=
  int (get s_elem "d") = Ok entry.1
  ∧ int (Some (get_or s_elem "r" "0")) = Ok entry.2.

Definition valid_entry (entry : Z * Z) : Prop := 0 < entry.1 ∧ 0 ≤ entry.2.

(** A running clock: emit the clock, advance it by [d], [n] times. *)
Fixpoint ticks (n : nat) (t d : Z) : list Z :=
  match n with
  | O => []
  | S n' => t :: ticks n' (t + d) d
  end.

(** The clock over the entries in document order: entry [(d, r)] makes
    it tick [r + 1] times. *)
Fixpoint clock_expand (t : Z) (entries : list (Z * Z)) : list Z :=
  match entries with
  | [] => []
  | (d, r) :: entries' =>
      let n := Z.to_nat (r + 1) in
      ticks n t d ++ clock_expand (t + Z.of_nat n * d) entries'
  end.

Definition total_repeats (entries : list (Z * Z)) : Z :=
  foldr (λ entry acc, entry.2 + 1 + acc) 0 entries.

(** [bs.hex()]: two lower-case hexadecimal digits per byte. *)
Definition hex_char (n : N) : ascii :=
  ascii_of_N (if (n <? 10)%N then 48 + n else 87 + n).
Definition hex_of_byte (b : byte) : string :=
  String (hex_char (Byte.to_N b / 16))
         (String (hex_char (Byte.to_N b mod 16)) EmptyString).
Fixpoint hex (bs : bytes) : string :=
  match bs with
  | [] => EmptyString
  | b :: bs' => hex_of_byte b +:+ hex bs'
  end.

(** A string without the letter x. *)
Fixpoint no_x (s : string) : Prop :=
  match s with
  | EmptyString => True
  | String c s' => c ≠ "x"%char ∧ no_x s'
  end.

(** The encrypting side, which the repository leaves to the server:
    PKCS7 padding to a whole number of blocks, then CBC, each plaintext
    block xored with the previous ciphertext block (the first one with
    the IV) before it is encrypted. *)
Definition pkcs7_pad (data : bytes) : bytes :=
  let n := (block_size - length data mod block_size)%nat in
  data ++ replicate n (default x00 (Byte.of_nat n)).

Fixpoint cbc_encrypt_blocks (key prev : bytes) (ps : list bytes)
  : list bytes :=
  match ps with
  | [] => []
  | p :: ps' =>
      let c := aes_encrypt_block key (xor_bytes p prev) in
      c :: cbc_encrypt_blocks key c ps'
  end.

Definition encrypt (plaintext key iv : bytes) : bytes :=
  concat (cbc_encrypt_blocks key iv (blocks (pkcs7_pad plaintext))).

(** The audio AdaptationSets of a Period, in document order, and the
    sets labelled exactly OriginalAudio. *)
Definition is_audio (adapt : element) : Prop :=
  get adapt "contentType" = Some "audio".
Definition is_original (adapt : element) : Prop :=
  label_of adapt = Some "OriginalAudio".
Definition audio_sets (period : element) : list element :=
  filter is_audio (findall period (dash "AdaptationSet")).

(** The candidate the selection loop holds after the audio sets
    [audio], starting from the candidate [cur]. *)
Fixpoint choose (cur : option element) (audio : list element)
  : option element :=
  match audio with
  | [] => cur
  | adapt :: audio' =>
      choose (if negb (bool_decide (is_Some cur))
                 || bool_decide (is_original adapt)
              then Some adapt else cur) audio'
  end.

(** The track a set is parsed to and selected as. *)
Definition selected_as (base_url : string) (adapt : element) : track :=
  match _parse_adaptation_set adapt base_url with
  | Ok tr => set_label (label_of adapt) tr
  | Raise _ => Track EmptyString [] EmptyString EmptyString [] None
  end.








(** How one attempt of a segment fetch ends: with the plaintext, with a
    response that is not a 200, or with an exception ([client.get]
    raised, or [_decrypt] raised on the body of a 200). *)
Inductive attempt_outcome :=
| Succeeded (data : bytes)
| Rejected
| Raised.

Definition attempt (key iv : bytes) (r : response) : attempt_outcome :=
  match r with
  | Failure => Raised
  | Response status_code content =>
      if status_code =? 200 then
        match _decrypt content key iv with
        | Ok data => Succeeded data
        | Raise _ => Raised
        end
      else Rejected
  end.




(** The batches of segment times the write loop hands to
    [asyncio.gather], one per [batch_start], in order. *)
Definition batches (times : list Z) : list (list Z) :=
  (λ batch_start, slice batch_start (batch_start + batch_size) times)
    <$> range 0 (length times) batch_size.

(** The URLs [_parse_args] takes from the command line: the arguments
    after the first [--urls], up to the first one that starts with two
    dashes. *)
Definition cli_urls (args : list string) : list string :=
  match index "--urls" args with
  | Some i =>
      take_while (λ arg, negb (startswith arg "--")) (drop (i + 1) args)
  | None => []
  end.

(** An entry of [captured] that stands for one of [responses]: its URL
    and its lower-cased content type, for a response with status 200 or
    206 whose URL does not contain [stream.aspx]. *)
Definition captured_from (responses : list page_response)
    (entry : string * string) : Prop :=
  contains "stream.aspx" entry.1 = false
  ∧ ∃ response,
      response ∈ responses
      ∧ rurl response = entry.1
      ∧ (status response = 200 ∨ status response = 206)
      ∧ entry.2 = lower (default EmptyString (content_type response)).

(** An exception and its causes, outermost first. *)
Fixpoint causes (exc : exception) : list exception :=
  exc :: match cause exc with
         | Some c => causes c
         | None => []
         end.

(** An exception that tells of a transient failure by itself: its type
    name or its message mentions a connection, a timeout or a remote
    disconnection, in whatever case, or its status code is 500, 502 or
    503. *)
Definition transient (exc : exception) : Prop :=
  (∃ ind, ind ∈ ["connection"; "timeout"; "remotedisconnected"]
          ∧ (contains ind (lower (type_name exc)) = true
             ∨ contains ind (lower (message exc)) = true))
  ∨ (∃ code, status_code exc = Some code
             ∧ (code = 500 ∨ code = 502 ∨ code = 503)).

(** The number of calls of [_transcribe_single] and the sleeps, in
    seconds, in what [_transcribe_with_retry] did. *)
Definition is_call (a : action) : bool :=
  match a with Transcribe _ => true | TimeSleep _ => false end.
Definition calls (trace : list action) : nat :=
  length (List.filter is_call trace).
Definition waits (trace : list action) : list Z :=
  omap (λ a, match a with TimeSleep seconds => Some seconds | _ => None end)
       trace.

(** What [_transcribe_with_retry] returns or raises for a part. *)
Definition part_result
    (single : string → nat → exception + list (segment num))
    (part_path : string) : exception + option (list (segment num)) :=
  (_transcribe_with_retry (single part_path) part_path).1.

(** The text [_parse_adaptation_set] reads the IV from: the [IV]
    attribute of the CryptoPeriod, its default of 32 zeros, or the empty
    string without a CryptoPeriod. *)
Definition iv_hex (adapt : element) : string :=
  match crypto_period adapt with
  | Some c => get_or c "IV" "0x00000000000000000000000000000000"
  | None => EmptyString
  end.

(** The calls of [_transcribe_single] on a part, given what the service
    does on each call for that part: it raises, or returns a
    transcription. *)
Definition single_of (zero : num)
    (api : string → nat → exception + transcription num)
    (part_path : string) (n : nat) : exception + list (segment num) :=
  match api part_path n with
  | inl e => inl e
  | inr transcription => inr (_transcribe_single zero transcription)
  end.

(** ** Properties *)

(** *** Segment timeline *)

Lemma emit_ticks n d times t :
  emit n d (times, t) = (times ++ ticks n t d, t + Z.of_nat n * d).
Proof.
  revert times t. induction n as [|n IH]; intros times t.
  - simpl. by rewrite app_nil_r, Z.add_0_r.
  - cbn [emit ticks fst snd]. rewrite IH, <- app_assoc. simpl. f_equal. lia.
Qed.

Lemma timeline_step_entry st s_elem entry :
  parses_to s_elem entry →
  timeline_step st s_elem
  = Ok (emit (Z.to_nat (entry.2 + 1)) entry.1 st).
Proof. intros [Hd Hr]. unfold timeline_step. by rewrite Hd, Hr. Qed.

Lemma timeline_loop s_elems entries times t :
  Forall2 parses_to s_elems entries →
  ∃ t', for_each timeline_step s_elems (times, t)
        = Ok (times ++ clock_expand t entries, t').
Proof.
  intros Hparse. revert times t.
  induction Hparse as [|s_elem [d r] s_elems entries Hs _ IH]; intros times t.
  - exists t. simpl. by rewrite app_nil_r.
  - cbn [for_each]. rewrite (timeline_step_entry _ _ _ Hs), emit_ticks.
    cbn [mbind result_bind fst snd].
    destruct (IH (times ++ ticks (Z.to_nat (r + 1)) t d)
                 (t + Z.of_nat (Z.to_nat (r + 1)) * d)) as [t' Ht'].
    exists t'. rewrite Ht'. cbn [clock_expand]. by rewrite app_assoc.
Qed.

Lemma segment_timeline_clock s_elems entries :
  Forall2 parses_to s_elems entries →
  segment_timeline s_elems = Ok (clock_expand 0 entries).
Proof.
  intros Hparse. unfold segment_timeline.
  destruct (timeline_loop _ _ [] 0 Hparse) as [t' ->]. done.
Qed.

Lemma ticks_length n t d : length (ticks n t d) = n.
Proof. revert t. induction n; intros; simpl; auto. Qed.

Lemma ticks_still n t : ticks n t 0 = replicate n t.
Proof. induction n as [|n IH]; simpl; [done|]. by rewrite Z.add_0_r, IH. Qed.

Lemma ticks_range n t d x :
  0 < d → x ∈ ticks n t d → t ≤ x < t + Z.of_nat n * d.
Proof.
  intros Hd. revert t. induction n as [|n IH]; intros t; simpl.
  - by intros ?%elem_of_nil.
  - intros [->|Hx%IH]%elem_of_cons; lia.
Qed.

Lemma ticks_increasing n t d : 0 < d → StronglySorted Z.lt (ticks n t d).
Proof.
  intros Hd. revert t. induction n as [|n IH]; intros t; simpl.
  - constructor.
  - constructor; [apply IH|].
    apply Forall_forall. intros x Hx%(ticks_range _ _ _ _ Hd). lia.
Qed.

Lemma clock_expand_from t entries x :
  Forall valid_entry entries → x ∈ clock_expand t entries → t ≤ x.
Proof.
  intros Hvalid. revert t.
  induction Hvalid as [|[d r] entries [Hd Hr] _ IH]; intros t; simpl in *.
  - by intros ?%elem_of_nil.
  - intros [Hx%(ticks_range _ _ _ _ Hd)|Hx%IH]%elem_of_app; [lia|]. nia.
Qed.

Lemma clock_expand_increasing t entries :
  Forall valid_entry entries → StronglySorted Z.lt (clock_expand t entries).
Proof.
  intros Hvalid. revert t.
  induction Hvalid as [|[d r] entries [Hd Hr] Hrest IH]; intros t; simpl in *.
  - constructor.
  - apply StronglySorted_app. split_and!; [|by apply ticks_increasing|apply IH].
    intros x1 x2 Hx1%(ticks_range _ _ _ _ Hd) Hx2%(clock_expand_from _ _ _ Hrest).
    lia.
Qed.

Lemma clock_expand_length t entries :
  Forall (λ entry, 0 ≤ entry.2) entries →
  Z.of_nat (length (clock_expand t entries)) = total_repeats entries.
Proof.
  intros Hvalid. revert t.
  induction Hvalid as [|[d r] entries Hr _ IH]; intros t; simpl in *; [done|].
  rewrite length_app, ticks_length, Nat2Z.inj_add, IH. lia.
Qed.

Lemma increasing_non_decreasing (l : list Z) :
  StronglySorted Z.lt l → StronglySorted Z.le l.
Proof.
  induction 1 as [|x l _ IH Hx]; constructor; [done|].
  eapply Forall_impl; [exact Hx|]. intros; simpl in *; lia.
Qed.

(** C2. For valid timeline entries (duration above 0, repeat at least
    0) the expansion returns the timestamps of a clock that starts at
    0, emits and then advances by the duration of the current entry,
    [r + 1] times per entry in document order; the sequence starts at
    0, is strictly increasing (hence non-decreasing) and has as many
    elements as the sum of [r + 1] over the entries. *)
Theorem timeline_expansion s_elems entries :
  Forall2 parses_to s_elems entries →
  Forall valid_entry entries →
  ∃ times,
    segment_timeline s_elems = Ok times
    ∧ times = clock_expand 0 entries
    ∧ (entries ≠ [] → head times = Some 0)
    ∧ StronglySorted Z.lt times
    ∧ StronglySorted Z.le times
    ∧ Z.of_nat (length times) = total_repeats entries.
Proof.
  intros Hparse Hvalid. exists (clock_expand 0 entries).
  split_and!; [by apply segment_timeline_clock|done| | | |].
  - destruct Hvalid as [|[d r] entries' [Hd Hr] _]; [done|]. intros _.
    simpl in *. destruct (Z.to_nat (r + 1)) eqn:Hn; [lia|done].
  - by apply clock_expand_increasing.
  - by apply increasing_non_decreasing, clock_expand_increasing.
  - apply clock_expand_length. eapply Forall_impl; [exact Hvalid|].
    by intros ? [_ ?].
Qed.

(** The loop raises only what [int] raised on one of the [S]
    elements. *)
Lemma timeline_loop_raises s_elems st e :
  for_each timeline_step s_elems st = Raise e →
  Exists (λ s_elem, int (get s_elem "d") = Raise e
                    ∨ int (Some (get_or s_elem "r" "0")) = Raise e) s_elems.
Proof.
  revert st. induction s_elems as [|s_elem s_elems IH]; intros st; [done|].
  cbn [for_each].
  destruct (timeline_step st s_elem) as [st'|e'] eqn:Hstep;
    cbn [mbind result_bind].
  - intros H%IH. by apply Exists_cons_tl.
  - intros [= ->]. apply Exists_cons_hd. unfold timeline_step in Hstep.
    destruct (int (get s_elem "d")) as [d|e'];
      cbn [mbind result_bind] in Hstep; [|left; congruence].
    destruct (int (Some (get_or s_elem "r" "0"))) as [r|e'];
      cbn [mbind result_bind] in Hstep; [done|right; congruence].
Qed.

(** C9 (amended). The expansion does not validate the entries: for any
    integer durations and repeats it returns the timestamps of the
    running clock and raises nothing; an entry with a negative repeat
    contributes no timestamp and leaves the clock where it was, an
    entry of duration zero contributes [r + 1] copies of the current
    clock, and the only failures are those of [int] on an attribute. *)
Theorem timeline_not_validated s_elems entries :
  Forall2 parses_to s_elems entries →
  segment_timeline s_elems = Ok (clock_expand 0 entries)
  ∧ (∀ st s_elem d r, parses_to s_elem (d, r) → r < 0 →
       timeline_step st s_elem = Ok st)
  ∧ (∀ times t s_elem r, parses_to s_elem (0, r) →
       timeline_step (times, t) s_elem
       = Ok (times ++ replicate (Z.to_nat (r + 1)) t, t))
  ∧ (∀ s_elems' e, segment_timeline s_elems' = Raise e →
       Exists (λ s_elem, int (get s_elem "d") = Raise e
                         ∨ int (Some (get_or s_elem "r" "0")) = Raise e)
              s_elems').
Proof.
  intros Hparse. split_and!.
  - by apply segment_timeline_clock.
  - intros st s_elem d r Hs Hr. rewrite (timeline_step_entry _ _ _ Hs).
    simpl. by replace (Z.to_nat (r + 1)) with 0%nat by lia.
  - intros times t s_elem r Hs. rewrite (timeline_step_entry _ _ _ Hs).
    simpl. rewrite emit_ticks, ticks_still. do 2 f_equal. lia.
  - intros s_elems' e. unfold segment_timeline.
    destruct (for_each timeline_step s_elems' ([], 0)) as [st|e'] eqn:Hloop;
      [done|].
    intros [= ->]. by eapply timeline_loop_raises.
Qed.

(** *** IV resolution *)

Lemma bind_Ok {A B} (m : result A) (f : A → result B) b :
  m ≫= f = Ok b → ∃ a, m = Ok a ∧ f a = Ok b.
Proof. destruct m as [a|e]; [by exists a|done]. Qed.

Lemma fromhex_byte top bot c c' s :
  is_space c = false → hex_digit c = Some top → hex_digit c' = Some bot →
  fromhex (String c (String c' s))
  = (byte_of_nibbles top bot ::.) <$> fromhex s.
Proof. intros Hc Htop Hbot. cbn [fromhex]. by rewrite Hc, Htop, Hbot. Qed.

Lemma fromhex_hex bs : fromhex (hex bs) = Ok bs.
Proof.
  induction bs as [|b bs IH]; [done|].
  change (hex (b :: bs))
    with (String (hex_char (Byte.to_N b / 16))
                 (String (hex_char (Byte.to_N b mod 16)) (hex bs))).
  rewrite (fromhex_byte (Byte.to_N b / 16) (Byte.to_N b mod 16)), IH;
    [|by destruct b..].
  cbn [fmap result_fmap]. f_equal. f_equal. by destruct b.
Qed.

Lemma no_x_hex bs : no_x (hex bs).
Proof.
  induction bs as [|b bs IH]; [done|].
  change (hex (b :: bs)) with (hex_of_byte b +:+ hex bs).
  destruct b; cbn -[hex]; by split_and!.
Qed.

Lemma replace_without_x s : no_x s → replace_go "0x" "" 0 s = s.
Proof.
  induction s as [|c s IH]; [done|]. intros [Hc Hs]. cbn [replace_go].
  assert (String.prefix "0x" (String c s) = false) as ->.
  { cbn -[ascii_dec]. destruct (ascii_dec "0" c) as [_|_]; [|done].
    destruct s as [|c' s']; [done|]. destruct Hs as [Hc' _].
    cbn -[ascii_dec]. by destruct (ascii_dec "x" c') as [<-|_]. }
  f_equal. by apply IH.
Qed.

Lemma replace_0x_hex bs : replace ("0x" +:+ hex bs) "0x" "" = hex bs.
Proof.
  unfold replace.
  change ("0x" +:+ hex bs) with (String "0" (String "x" (hex bs))).
  cbn [replace_go]. cbn -[hex replace_go].
  replace (String.prefix "" (hex bs)) with true by (by destruct (hex bs)).
  cbn [String.app].
  apply replace_without_x, no_x_hex.
Qed.

(** The IV of a parsed set is the hex-decoding of [iv_hex] once every
    [0x] is removed. *)
Lemma parsed_iv adapt base_url tr :
  _parse_adaptation_set adapt base_url = Ok tr →
  fromhex (replace
             match crypto_period adapt with
             | Some c => get_or c "IV" "0x00000000000000000000000000000000"
             | None => EmptyString
             end "0x" "") = Ok (iv tr).
Proof.
  unfold _parse_adaptation_set. intros H.
  apply bind_Ok in H as (iv_ & -> & H).
  apply bind_Ok in H as (seg_tpl & _ & H).
  apply bind_Ok in H as (rep & _ & H).
  apply bind_Ok in H as (timeline & _ & H).
  apply bind_Ok in H as (times & _ & H).
  by injection H as <-.
Qed.

(** C7 (amended). The IV of a parsed AdaptationSet is the hex-decoding
    of the IV attribute of its CryptoPeriod after every [0x] is
    removed, so it has as many bytes as the attribute has pairs of
    digits (16 only when the attribute spells 16 bytes); when the
    CryptoPeriod is there without an IV attribute the IV is 16 zero
    bytes; when the ContentProtection element or its CryptoPeriod is
    absent the IV is the empty byte string. *)
Theorem iv_resolution adapt base_url tr :
  _parse_adaptation_set adapt base_url = Ok tr →
  (crypto_period adapt = None → iv tr = [])
  ∧ (∀ crypto, crypto_period adapt = Some crypto →
       get crypto "IV" = None → iv tr = replicate 16 x00)
  ∧ (∀ crypto v, crypto_period adapt = Some crypto →
       get crypto "IV" = Some v → fromhex (replace v "0x" "") = Ok (iv tr))
  ∧ (∀ crypto bs, crypto_period adapt = Some crypto →
       get crypto "IV" = Some ("0x" +:+ hex bs) →
       iv tr = bs ∧ length (iv tr) = length bs).
Proof.
  intros Hiv%parsed_iv. split_and!.
  - intros Hnone. rewrite Hnone in Hiv. by injection Hiv.
  - intros crypto Hsome Hattr. rewrite Hsome in Hiv.
    unfold get_or, get in *. rewrite Hattr in Hiv. by injection Hiv.
  - intros crypto v Hsome Hattr. rewrite Hsome in Hiv.
    unfold get_or, get in *. by rewrite Hattr in Hiv.
  - intros crypto bs Hsome Hattr. rewrite Hsome in Hiv.
    unfold get_or, get in *. rewrite Hattr in Hiv.
    cbn [default from_option id] in Hiv.
    rewrite replace_0x_hex, fromhex_hex in Hiv. by injection Hiv as ->.
Qed.

(** *** Decryptor *)

Lemma byte_xor_cancel a b : byte_xor (byte_xor a b) b = a.
Proof.
  unfold byte_xor. rewrite Byte.to_bits_of_bits.
  rewrite <- (Byte.of_bits_to_bits a) at 2.
  destruct (Byte.to_bits a) as (a0&a1&a2&a3&a4&a5&a6&a7).
  destruct (Byte.to_bits b) as (b0&b1&b2&b3&b4&b5&b6&b7).
  cbn [xor_bits]. by rewrite !xorb_assoc, !xorb_nilpotent, !xorb_false_r.
Qed.

Lemma xor_bytes_length a b :
  length (xor_bytes a b) = Nat.min (length a) (length b).
Proof. apply length_zip_with. Qed.

Lemma xor_bytes_cancel a b :
  (length a ≤ length b)%nat → xor_bytes (xor_bytes a b) b = a.
Proof.
  revert b. induction a as [|x a IH]; intros [|y b] Hlen; simpl in *;
    try done; [lia|].
  rewrite byte_xor_cancel. f_equal. apply IH. lia.
Qed.

Lemma blocks_cons x data :
  blocks (x :: data)
  = take block_size (x :: data) :: blocks (drop block_size (x :: data)).
Proof. by simp blocks. Qed.

Lemma blocks_app block data :
  length block = block_size → blocks (block ++ data) = block :: blocks data.
Proof.
  intros Hlen. destruct block as [|x block]; [done|].
  change ((x :: block) ++ data) with (x :: (block ++ data)).
  rewrite blocks_cons.
  change (x :: (block ++ data)) with ((x :: block) ++ data).
  by rewrite take_app_length', drop_app_length'.
Qed.

Lemma blocks_concat bs :
  Forall (λ block, length block = block_size) bs → blocks (concat bs) = bs.
Proof.
  induction 1 as [|block bs Hlen _ IH]; simpl; [by simp blocks|].
  by rewrite blocks_app, IH.
Qed.

Lemma concat_blocks data : concat (blocks data) = data.
Proof.
  funelim (blocks data); simp blocks; [done|].
  cbn [concat]. change (drop block_size (b :: data)) with (drop 15 data).
  rewrite H. apply (take_drop block_size (b :: data)).
Qed.

Lemma blocks_whole data :
  (length data mod block_size = 0)%nat →
  Forall (λ block, length block = block_size) (blocks data).
Proof.
  funelim (blocks data); simp blocks; intros Hmod; [constructor|].
  apply Nat.Lcm0.mod_divide in Hmod as [q Hq].
  assert (q ≠ 0)%nat as Hq0 by (intros ->; done).
  constructor.
  - rewrite length_take. unfold block_size in *. lia.
  - apply H. change (drop 15 data) with (drop block_size (b :: data)).
    rewrite length_drop, Hq. apply Nat.Lcm0.mod_divide.
    exists (q - 1)%nat. unfold block_size. lia.
Qed.

Lemma blocks_total_length (bs : list bytes) :
  Forall (λ block, length block = block_size) bs →
  length (concat bs) = (block_size * length bs)%nat.
Proof.
  induction 1 as [|block bs Hlen _ IH]; simpl; [done|].
  rewrite length_app, IH, Hlen. unfold block_size. lia.
Qed.

Lemma byte_val_inj a b : byte_val a = byte_val b → a = b.
Proof.
  unfold byte_val. intros H%N2Z.inj.
  assert (Some a = Some b) by (by rewrite <- !Byte.of_to_N, H). congruence.
Qed.

(** The check [all(b == pad for b in result[-pad:])] in terms of the
    positions of [result]. *)
Lemma trailing_check res b n :
  forallb (λ b', byte_val b' =? byte_val b) (slice_last n res) = true
  ↔ ∀ i b', (length res - n ≤ i)%nat → res !! i = Some b' → b' = b.
Proof.
  unfold slice_last. rewrite forallb_forall. split.
  - intros Hall i b' Hi Hb'. apply byte_val_inj, Z.eqb_eq, Hall.
    apply list_elem_of_In, (list_elem_of_lookup_2 _ (i - (length res - n))).
    rewrite lookup_drop, <- Hb'. f_equal. lia.
  - intros Hall b' [j Hj]%list_elem_of_In%list_elem_of_lookup.
    rewrite lookup_drop in Hj. apply Z.eqb_eq. f_equal.
    apply (Hall _ _ (Nat.le_add_r _ j) Hj).
Qed.

Lemma unpad_keep res b :
  last res = Some b →
  byte_val b < 1 ∨ 16 < byte_val b
  ∨ (∃ i b', (length res - Z.to_nat (byte_val b) ≤ i)%nat
             ∧ res !! i = Some b' ∧ b' ≠ b) →
  unpad res = res.
Proof.
  intros Hlast Hbad. unfold unpad. rewrite Hlast.
  destruct (1 <=? byte_val b) eqn:H1; [|done].
  destruct (byte_val b <=? 16) eqn:H16; [|done].
  destruct (forallb _ _) eqn:Hall; [|done]. exfalso.
  destruct Hbad as [?|[?|(i & b' & Hi & Hb' & Hne)]]; [lia..|].
  apply Hne. by eapply trailing_check.
Qed.

Lemma unpad_strip res b :
  last res = Some b →
  1 ≤ byte_val b ≤ 16 →
  (∀ i b', (length res - Z.to_nat (byte_val b) ≤ i)%nat →
           res !! i = Some b' → b' = b) →
  unpad res = slice_but_last (Z.to_nat (byte_val b)) res.
Proof.
  intros Hlast Hp Hall%trailing_check. unfold unpad. rewrite Hlast, Hall.
  by replace (1 <=? byte_val b) with true by lia;
     replace (byte_val b <=? 16) with true by lia.
Qed.

Lemma cbc_decrypt_Ok key iv data res :
  cbc_decrypt key iv data = Ok res →
  valid_key key = true ∧ length iv = block_size
  ∧ (length data mod block_size = 0)%nat
  ∧ res = concat (cbc_decrypt_blocks key iv (blocks data)).
Proof.
  unfold cbc_decrypt.
  destruct (valid_key key); [|done].
  destruct (length iv =? block_size)%nat eqn:Hiv; [|done].
  destruct (length data mod block_size =? 0)%nat eqn:Hdata; [|done].
  apply Nat.eqb_eq in Hiv, Hdata. by intros [= <-].
Qed.

Section Blocks.

(** Under a key of a valid size the AES primitive maps a block to a
    block. *)
Hypothesis aes_decrypt_block_length : ∀ key block,
  valid_key key = true → length block = block_size →
  length (aes_decrypt_block key block) = block_size.

Lemma cbc_decrypt_blocks_whole key prev cs :
  valid_key key = true → length prev = block_size →
  Forall (λ block, length block = block_size) cs →
  Forall (λ block, length block = block_size)
         (cbc_decrypt_blocks key prev cs)
  ∧ length (cbc_decrypt_blocks key prev cs) = length cs.
Proof.
  intros Hkey Hprev Hcs. revert prev Hprev.
  induction Hcs as [|c cs Hc _ IH]; intros prev Hprev; simpl; [done|].
  destruct (IH c Hc) as [Hall Hlen]. split; [|by rewrite Hlen].
  constructor; [|done].
  rewrite xor_bytes_length, aes_decrypt_block_length, Hprev by done. lia.
Qed.

Lemma cbc_decrypt_length key iv data res :
  cbc_decrypt key iv data = Ok res → length res = length data.
Proof.
  intros (Hkey & Hiv & Hdata%blocks_whole & ->)%cbc_decrypt_Ok.
  destruct (cbc_decrypt_blocks_whole key iv _ Hkey Hiv Hdata)
    as [Hall Hlen].
  rewrite (blocks_total_length _ Hall), Hlen.
  transitivity (length (concat (blocks data)));
    [symmetry; by apply blocks_total_length|by rewrite concat_blocks].
Qed.

(** C3. When the CBC decryption of a ciphertext ends in a byte [p]
    outside 1..16, or one of its last [p] bytes differs from [p], the
    Decryptor returns the decrypted bytes as they are: it raises
    nothing and truncates nothing. When [p] is in 1..16 and the last
    [p] bytes all equal [p], exactly those [p] bytes are removed. *)
Theorem padding_check key iv data res :
  cbc_decrypt key iv data = Ok res →
  (res = [] → _decrypt data key iv = Ok [])
  ∧ ∀ b, last res = Some b →
      (byte_val b < 1 ∨ 16 < byte_val b
       ∨ (∃ i b', (length res - Z.to_nat (byte_val b) ≤ i)%nat
                  ∧ res !! i = Some b' ∧ b' ≠ b) →
       _decrypt data key iv = Ok res)
      ∧ (1 ≤ byte_val b ≤ 16 →
         (∀ i b', (length res - Z.to_nat (byte_val b) ≤ i)%nat →
                  res !! i = Some b' → b' = b) →
         ∃ body, res = body ++ replicate (Z.to_nat (byte_val b)) b
                 ∧ _decrypt data key iv = Ok body).
Proof.
  intros Hres. unfold _decrypt. rewrite Hres. cbn [fmap result_fmap].
  split; [by intros ->|]. intros b Hlast. split.
  - intros Hbad. by rewrite (unpad_keep _ _ Hlast Hbad).
  - intros Hp Hall. rewrite (unpad_strip _ _ Hlast Hp Hall).
    exists (slice_but_last (Z.to_nat (byte_val b)) res). split; [|done].
    assert (block_size ≤ length res)%nat as Hlen.
    { pose proof (cbc_decrypt_length _ _ _ _ Hres) as Hlen.
      apply cbc_decrypt_Ok in Hres
        as (_ & _ & [q Hq]%Nat.Lcm0.mod_divide & _).
      apply last_Some in Hlast as [res' ->].
      rewrite length_app in Hlen |- *. simpl in *.
      unfold block_size in *. lia. }
    unfold slice_but_last, block_size in *.
    rewrite <- (take_drop (length res - Z.to_nat (byte_val b)) res) at 1.
    f_equal. symmetry. apply replicate_as_elem_of. split.
    + rewrite length_drop. lia.
    + intros b' [j Hj]%list_elem_of_lookup. rewrite lookup_drop in Hj.
      apply (Hall _ _ (Nat.le_add_r _ j) Hj).
Qed.

End Blocks.

Lemma pad_byte n :
  (n ≤ 16)%nat → byte_val (default x00 (Byte.of_nat n)) = Z.of_nat n.
Proof. intros Hn. do 17 (destruct n as [|n]; [done|]). lia. Qed.

Lemma pkcs7_pad_whole data :
  (length (pkcs7_pad data) mod block_size = 0)%nat.
Proof.
  unfold pkcs7_pad. rewrite length_app, length_replicate.
  apply Nat.Lcm0.mod_divide. exists (length data / block_size + 1)%nat.
  pose proof (Nat.div_mod_eq (length data) block_size).
  pose proof (Nat.mod_upper_bound (length data) block_size).
  unfold block_size in *. lia.
Qed.

Lemma unpad_pkcs7_pad data : unpad (pkcs7_pad data) = data.
Proof.
  unfold pkcs7_pad.
  pose proof (Nat.mod_upper_bound (length data) block_size) as Hmod.
  set (n := (block_size - length data mod block_size)%nat).
  assert (1 ≤ n ≤ 16)%nat as Hn by (unfold n, block_size in *; lia).
  set (b := default x00 (Byte.of_nat n)).
  assert (byte_val b = Z.of_nat n) as Hb by (apply pad_byte; lia).
  assert (last (data ++ replicate n b) = Some b) as Hlast.
  { destruct n as [|n']; [lia|]. by rewrite replicate_S_end, app_assoc, last_snoc. }
  rewrite (unpad_strip _ b Hlast); rewrite ?Hb, ?Nat2Z.id; [|lia|].
  - unfold slice_but_last. rewrite length_app, length_replicate.
    by rewrite take_app_length' by lia.
  - intros i b'. rewrite length_app, length_replicate. intros Hi.
    rewrite lookup_app_r by lia. by intros [-> _]%lookup_replicate.
Qed.

Section RoundTrip.

(** AES encryption maps a block to a block, and decryption under the
    same key undoes it. *)
Hypothesis aes_encrypt_block_length : ∀ key block,
  valid_key key = true → length block = block_size →
  length (aes_encrypt_block key block) = block_size.
Hypothesis aes_decrypt_encrypt : ∀ key block,
  valid_key key = true → length block = block_size →
  aes_decrypt_block key (aes_encrypt_block key block) = block.

Lemma cbc_encrypt_blocks_whole key prev ps :
  valid_key key = true → length prev = block_size →
  Forall (λ block, length block = block_size) ps →
  Forall (λ block, length block = block_size)
         (cbc_encrypt_blocks key prev ps).
Proof.
  intros Hkey Hprev Hps. revert prev Hprev.
  induction Hps as [|p ps Hp _ IH]; intros prev Hprev; simpl; [done|].
  assert (length (aes_encrypt_block key (xor_bytes p prev)) = block_size).
  { apply aes_encrypt_block_length; [done|].
    rewrite xor_bytes_length, Hp, Hprev. lia. }
  constructor; [done|]. by apply IH.
Qed.

Lemma cbc_blocks_roundtrip key prev ps :
  valid_key key = true → length prev = block_size →
  Forall (λ block, length block = block_size) ps →
  cbc_decrypt_blocks key prev (cbc_encrypt_blocks key prev ps) = ps.
Proof.
  intros Hkey Hprev Hps. revert prev Hprev.
  induction Hps as [|p ps Hp _ IH]; intros prev Hprev; simpl; [done|].
  assert (length (xor_bytes p prev) = block_size) as Hxor.
  { rewrite xor_bytes_length, Hp, Hprev. lia. }
  rewrite aes_decrypt_encrypt, xor_bytes_cancel, IH; try done.
  - by apply aes_encrypt_block_length.
  - rewrite Hp, Hprev. lia.
Qed.

(** C6. Padding a plaintext with PKCS7, encrypting it with AES-128 in
    CBC mode and handing the ciphertext to the Decryptor with the
    same 16-byte key and 16-byte IV gives the plaintext back. *)
Theorem decrypt_encrypt plaintext key iv :
  length key = 16%nat → length iv = 16%nat →
  _decrypt (encrypt plaintext key iv) key iv = Ok plaintext.
Proof.
  intros Hkey Hiv.
  assert (valid_key key = true) as Hvalid by (unfold valid_key; by rewrite Hkey).
  pose proof (blocks_whole _ (pkcs7_pad_whole plaintext)) as Hps.
  pose proof (cbc_encrypt_blocks_whole key iv _ Hvalid Hiv Hps) as Hcs.
  unfold _decrypt, cbc_decrypt, encrypt.
  rewrite Hvalid, Hiv, (blocks_total_length _ Hcs), Nat.mul_comm,
    Nat.Div0.mod_mul, (blocks_concat _ Hcs),
    (cbc_blocks_roundtrip _ _ _ Hvalid Hiv Hps), concat_blocks.
  cbn. by rewrite unpad_pkcs7_pad.
Qed.

End RoundTrip.

(** *** Track selection *)

Lemma select_step_skip base_url audio_track adapt :
  ¬ is_audio adapt → select_step base_url audio_track adapt = Ok audio_track.
Proof. intros Hno. unfold select_step. by rewrite decide_True. Qed.

Lemma select_step_audio base_url audio_track adapt tr :
  is_audio adapt → _parse_adaptation_set adapt base_url = Ok tr →
  select_step base_url audio_track adapt
  = Ok (if negb (bool_decide (is_Some audio_track))
           || bool_decide (is_original adapt)
        then Some (set_label (label_of adapt) tr) else audio_track).
Proof.
  intros Hyes Htr. unfold select_step.
  rewrite decide_False, Htr by (by intros []). cbn [mbind result_bind].
  unfold is_original. by destruct (negb _ || _).
Qed.

Lemma select_loop base_url sets cur :
  (∀ adapt, adapt ∈ filter is_audio sets →
            ∃ tr, _parse_adaptation_set adapt base_url = Ok tr) →
  for_each (select_step base_url) sets (selected_as base_url <$> cur)
  = Ok (selected_as base_url <$> choose cur (filter is_audio sets)).
Proof.
  revert cur. induction sets as [|adapt sets IH]; intros cur Hparse; [done|].
  cbn [for_each]. destruct (decide (is_audio adapt)) as [Hyes|Hno].
  - rewrite filter_cons_True in Hparse |- * by done.
    destruct (Hparse adapt) as [tr Htr]; [by left|].
    rewrite (select_step_audio _ _ _ _ Hyes Htr).
    cbn [mbind result_bind choose].
    rewrite <- IH by (intros; apply Hparse; by right). f_equal.
    assert (bool_decide (is_Some (selected_as base_url <$> cur))
            = bool_decide (is_Some cur)) as ->.
    { apply bool_decide_ext. by rewrite fmap_is_Some. }
    destruct (negb _ || _); [|done].
    cbn. unfold selected_as. by rewrite Htr.
  - rewrite filter_cons_False in Hparse |- * by done.
    rewrite select_step_skip by done. by apply IH.
Qed.



Lemma select_audio_track_choose period base_url :
  (∀ a, a ∈ audio_sets period →
        ∃ tr, _parse_adaptation_set a base_url = Ok tr) →
  select_audio_track period base_url
  = Ok (selected_as base_url <$> choose None (audio_sets period)).
Proof. intros Hparse. apply (select_loop base_url _ None Hparse). Qed.





(** *** Assembly *)




Lemma write_results_app f results :
  write_results f results = f ++ mjoin (omap id results).
Proof.
  unfold write_results. revert f.
  induction results as [|[[|b data]|] results IH]; intros f; cbn [foldl].
  - by rewrite app_nil_r.
  - by rewrite IH.
  - rewrite IH. cbn. by rewrite <- app_assoc.
  - by rewrite IH.
Qed.












(** *** Segment fetch *)





(** *** What a session reports *)


(** *** Batches *)

Lemma range_from_lookup fuel start stop step i b :
  range_from fuel start stop step !! i = Some b →
  b = (start + i * step)%nat ∧ (b < stop)%nat.
Proof.
  revert start i. induction fuel as [|fuel IH]; intros start i; [done|].
  cbn [range_from]. destruct (start <? stop)%nat eqn:Hlt; [|done].
  apply Nat.ltb_lt in Hlt. destruct i as [|i]; cbn.
  - intros [= <-]. lia.
  - intros [-> ?]%IH. lia.
Qed.

Lemma range_from_length fuel start stop :
  (stop - start ≤ fuel)%nat →
  length (range_from fuel start stop batch_size)
  = ((stop - start + 29) / 30)%nat.
Proof.
  revert start. induction fuel as [|fuel IH]; intros start Hfuel.
  - cbn. replace (stop - start)%nat with 0%nat by lia. done.
  - cbn [range_from]. destruct (start <? stop)%nat eqn:Hlt.
    + apply Nat.ltb_lt in Hlt. cbn [length].
      rewrite IH by (unfold batch_size; lia). unfold batch_size.
      destruct (decide (stop - start < 30)%nat) as [Hshort|Hlong].
      * replace (stop - (start + 30))%nat with 0%nat by lia.
        change ((0 + 29) / 30)%nat with 0%nat.
        apply (Nat.div_unique _ 30 1 (stop - start - 1)); lia.
      * replace (stop - start + 29)%nat
          with (stop - (start + 30) + 29 + 1 * 30)%nat by lia.
        rewrite Nat.div_add by done. lia.
    + apply Nat.ltb_ge in Hlt.
      replace (stop - start)%nat with 0%nat by lia. done.
Qed.

Lemma batches_from (times : list Z) fuel start :
  (length times - start ≤ fuel)%nat →
  mjoin ((λ b, slice b (b + batch_size) times)
           <$> range_from fuel start (length times) batch_size)
  = drop start times.
Proof.
  revert start. induction fuel as [|fuel IH]; intros start Hfuel.
  - cbn. by rewrite drop_ge by lia.
  - cbn [range_from]. destruct (start <? length times)%nat eqn:Hlt.
    + apply Nat.ltb_lt in Hlt. cbn [fmap list_fmap mjoin list_join].
      rewrite IH by (unfold batch_size; lia). unfold slice.
      replace (start + batch_size - start)%nat with batch_size by lia.
      by rewrite <- (drop_drop times batch_size start), take_drop.
    + apply Nat.ltb_ge in Hlt. cbn. by rewrite drop_ge by lia.
Qed.

(** X1. The write loop cuts the segment times into consecutive batches:
    batch [i] holds the (up to) 30 times from position [30 * i] on, the
    batches put one after the other give the timeline back, there are
    [ceil(n / 30)] of them, none is empty, and all but the last hold
    exactly 30 times. *)
Theorem batches_partition (times : list Z) :
  mjoin (batches times) = times
  ∧ length (batches times) = ((length times + 29) / 30)%nat
  ∧ ∀ i batch, batches times !! i = Some batch →
      batch = take 30 (drop (30 * i) times)
      ∧ (0 < length batch ≤ 30)%nat
      ∧ ((i + 1 < length (batches times))%nat → length batch = 30%nat).
Proof.
  assert (length (batches times) = ((length times + 29) / 30)%nat) as Hlen.
  { unfold batches, range. rewrite length_fmap, range_from_length by lia.
    by rewrite Nat.sub_0_r. }
  split_and!.
  - unfold batches, range. rewrite batches_from by lia. by rewrite drop_0.
  - done.
  - intros i batch Hbatch. rewrite Hlen. unfold batches, range in Hbatch.
    rewrite list_lookup_fmap in Hbatch.
    destruct (range_from _ _ _ _ !! i) as [b|] eqn:Hb; [|done].
    injection Hbatch as <-.
    apply range_from_lookup in Hb as [-> Hlt]. unfold slice, batch_size in *.
    replace (0 + i * 30 + 30 - (0 + i * 30))%nat with 30%nat by lia.
    replace (0 + i * 30)%nat with (30 * i)%nat in * by lia.
    rewrite length_take, length_drop. split_and!; [done|lia|lia|].
    intros Hnext.
    assert (30 * (i + 2) ≤ length times + 29)%nat; [|lia].
    pose proof (Nat.div_mod_eq (length times + 29) 30). lia.
Qed.

(** *** Failure paths of a session *)

Lemma for_each_grows {S A} (R : S → S → Prop)
    (body : S → A → option S) l st st' :
  (∀ st, R st st) → (∀ st1 st2 st3, R st1 st2 → R st2 st3 → R st1 st3) →
  (∀ st x st', body st x = Some st' → R st st') →
  for_each body l st = Some st' → R st st'.
Proof.
  intros Hrefl Htrans Hbody. revert st.
  induction l as [|x l IH]; intros st; cbn.
  - intros [= ->]. apply Hrefl.
  - destruct (body st x) as [st1|] eqn:Hstep; [|done]. cbn.
    intros Hrest. eapply Htrans; [by eapply Hbody|by apply IH].
Qed.

(** The write loop only ever appends to the file. *)
Lemma write_segments_prefix net sched audio_track key iv init_data written :
  write_segments net sched audio_track key iv init_data = Some written →
  init_data `prefix_of` written.1.
Proof.
  unfold write_segments. intros Hloop.
  apply (for_each_grows (λ st st' : bytes * list msg, st.1 `prefix_of` st'.1))
    in Hloop; [done|done| |].
  - intros st1 st2 st3. apply transitivity.
  - intros st b st'. unfold batch_step.
    destruct (gather _ _) as [results|]; [|done]. cbn.
    intros [= <-]. cbn. rewrite write_results_app. by apply prefix_app_r.
Qed.

Lemma decrypt_Ok data key iv res :
  _decrypt data key iv = Ok res →
  ∃ plain, cbc_decrypt key iv data = Ok plain ∧ res = unpad plain.
Proof.
  unfold _decrypt. destruct (cbc_decrypt key iv data) as [plain|]; [|done].
  intros [= <-]. by exists plain.
Qed.

Lemma init_request_cases audio_track :
  init_request audio_track
  = if decide (init_url audio_track = key_url audio_track)
    then 1%nat else 0%nat.
Proof.
  unfold init_request. rewrite filter_cons, filter_nil.
  destruct (decide (key_url audio_track = init_url audio_track)),
           (decide (init_url audio_track = key_url audio_track));
    done || congruence.
Qed.

(** How a session that ends went: either it stopped before the file
    was opened, or it got the key and the init segment, ran the write
    loop and handed the file to ffmpeg. *)
Lemma download_inv net sched root o :
  _download_dash_audio net sched root = Some o →
  (fmp4 o = None ∧ flac o = None ∧ returned o ≠ Ok true)
  ∨ ∃ period audio_track key content init_data written,
      find root (dash "Period") = Some period
      ∧ select_audio_track period (findtext root (dash "BaseURL") "")
        = Ok (Some audio_track)
      ∧ net Session (key_url audio_track) 0%nat = Response 200 key
      ∧ net Session (init_url audio_track) (init_request audio_track)
        = Response 200 content
      ∧ _decrypt content key (iv audio_track) = Ok init_data
      ∧ write_segments net sched audio_track key (iv audio_track) init_data
        = Some written
      ∧ fmp4 o = Some written.1
      ∧ flac o = (ffmpeg written.1).2
      ∧ returned o
        = (returncode ← (ffmpeg written.1).1;
           if negb (returncode =? 0) then Ok false
           else if (ffmpeg written.1).2 is Some _ then Ok true
                else Raise OSError).
Proof.
  unfold _download_dash_audio.
  destruct (find root (dash "Period")) as [period|] eqn:Hperiod;
    cbn [require mbind result_bind]; [|intros [= <-]; by left].
  destruct (select_audio_track period _) as [[audio_track|]|] eqn:Hselect;
    [|intros [= <-]; by left..].
  destruct (net Session (key_url audio_track) 0%nat) as [status key|] eqn:Hkey;
    [|intros [= <-]; by left].
  destruct (status =? 200) eqn:Hstatus; cbn [negb];
    [|intros [= <-]; by left].
  apply Z.eqb_eq in Hstatus as ->.
  destruct (net Session (init_url audio_track) (init_request audio_track))
    as [status content|] eqn:Hinit; [|intros [= <-]; by left].
  destruct (status =? 200) eqn:Hstatus; cbn [negb];
    [|intros [= <-]; by left].
  apply Z.eqb_eq in Hstatus as ->.
  destruct (_decrypt content key (iv audio_track)) as [init_data|] eqn:Hdecrypt;
    [|intros [= <-]; by left].
  destruct (write_segments _ _ _ _ _ _) as [written|] eqn:Hwritten; [|done].
  cbn [mbind option_bind]. intros Ho. right.
  exists period, audio_track, key, content, init_data, written.
  destruct (ffmpeg written.1) as [[returncode|e] [converted|]];
    try destruct (returncode =? 0) eqn:Hcode; cbn in Ho;
    injection Ho as <-; split_and!; try done;
    cbn [returned fst snd mbind result_bind]; by rewrite Hcode.
Qed.

(** X2. A session leaves a file for ffmpeg only if the key request and the
    init request were both answered with a 200, the key has one of the
    AES key sizes, the IV of the track is 16 bytes and the init segment
    is a whole number of blocks; the file then starts with the decrypted
    init segment. The init request is the second request of the session
    for its URL when that is also the URL of the key, and the first
    otherwise. *)
Theorem written_file_requirements net sched root o f :
  _download_dash_audio net sched root = Some o →
  fmp4 o = Some f →
  ∃ period audio_track key content init_data,
    find root (dash "Period") = Some period
    ∧ select_audio_track period (findtext root (dash "BaseURL") "")
      = Ok (Some audio_track)
    ∧ net Session (key_url audio_track) 0%nat = Response 200 key
    ∧ valid_key key = true
    ∧ length (iv audio_track) = 16%nat
    ∧ net Session (init_url audio_track) (init_request audio_track)
      = Response 200 content
    ∧ (init_request audio_track
       = if decide (init_url audio_track = key_url audio_track)
         then 1 else 0)%nat
    ∧ (length content mod 16 = 0)%nat
    ∧ _decrypt content key (iv audio_track) = Ok init_data
    ∧ init_data `prefix_of` f.
Proof.
  intros [(Hnone & _)|Hrun]%download_inv Hf; [congruence|].
  destruct Hrun as (period & audio_track & key & content & init_data
                    & written & Hperiod & Hselect & Hkey & Hinit & Hdecrypt
                    & Hwritten & Hfmp4 & _).
  exists period, audio_track, key, content, init_data.
  destruct (decrypt_Ok _ _ _ _ Hdecrypt) as (plain & Hplain & _).
  apply cbc_decrypt_Ok in Hplain as (Hvalid & Hiv & Hwhole & _).
  split_and!; try done; [apply init_request_cases|].
  rewrite Hfmp4 in Hf. injection Hf as <-.
  by eapply write_segments_prefix.
Qed.

(** X3. A session returns True exactly when ffmpeg, run on the assembled
    file, exited with return code 0 and left a file at the destination.
    Whatever ffmpeg left at the destination stays there: a session whose
    ffmpeg exits with another code returns False, and one whose ffmpeg
    run raises lets the exception through, without removing it. A
    session that stops before the file is assembled does not run ffmpeg
    and writes nothing at the destination. *)
Theorem converted_iff_true net sched root o :
  _download_dash_audio net sched root = Some o →
  (returned o = Ok true
   ↔ ∃ f converted, fmp4 o = Some f ∧ ffmpeg f = (Ok 0, Some converted))
  ∧ (∀ f, fmp4 o = Some f → flac o = (ffmpeg f).2)
  ∧ (fmp4 o = None → flac o = None)
  ∧ (∀ f returncode, fmp4 o = Some f → (ffmpeg f).1 = Ok returncode →
       returncode ≠ 0 → returned o = Ok false)
  ∧ (∀ f e, fmp4 o = Some f → (ffmpeg f).1 = Raise e → returned o = Raise e).
Proof.
  intros [(Hfmp4 & Hflac & Hreturned)|Hrun]%download_inv.
  - rewrite Hfmp4. split_and!; try done.
    split; [done|]. by intros (f & converted & [=] & _).
  - destruct Hrun as (_ & _ & _ & _ & _ & written & _ & _ & _ & _ & _ & _
                      & Hfmp4 & Hflac & Hreturned).
    rewrite Hfmp4, Hflac, Hreturned. clear Hfmp4 Hflac Hreturned.
    split_and!.
    + split.
      * destruct (ffmpeg written.1) as [[returncode|e] [converted|]]
          eqn:Hffmpeg; cbn [fst snd mbind result_bind]; try done;
          destruct (returncode =? 0) eqn:Hcode; cbn [negb]; try done.
        apply Z.eqb_eq in Hcode as ->. intros _. by eexists _, _.
      * intros (f & converted & [= <-] & ->). done.
    + by intros f [= <-].
    + done.
    + intros f returncode [= <-] -> Hcode. cbn [mbind result_bind].
      by rewrite (proj2 (Z.eqb_neq _ _) Hcode).
    + by intros f e [= <-] ->.
Qed.

Lemma for_each_app {S A} (body : S → A → result S) l1 l2 st :
  for_each body (l1 ++ l2) st = for_each body l1 st ≫= for_each body l2.
Proof.
  revert st. induction l1 as [|x l1 IH]; intros st; [done|].
  cbn. destruct (body st x); cbn; [apply IH|done].
Qed.

(** X4. A set that is not audio is never parsed, but an audio set that
    cannot be parsed ends the selection with its exception, wherever it
    stands and whatever the other sets are: the session raises it with
    nothing printed and no file written. *)
Theorem malformed_audio_set_aborts period base_url before adapt after e :
  findall period (dash "AdaptationSet") = before ++ adapt :: after →
  (∀ a, a ∈ filter is_audio before →
        ∃ tr, _parse_adaptation_set a base_url = Ok tr) →
  is_audio adapt →
  _parse_adaptation_set adapt base_url = Raise e →
  select_audio_track period base_url = Raise e
  ∧ ∀ net sched root,
      find root (dash "Period") = Some period →
      findtext root (dash "BaseURL") "" = base_url →
      _download_dash_audio net sched root
      = Some (Outcome (Raise e) [] None None).
Proof.
  intros Hsets Hbefore Haudio Hparse.
  assert (select_audio_track period base_url = Raise e) as Hselect.
  { unfold select_audio_track. rewrite Hsets, for_each_app.
    change (@None track) with (selected_as base_url <$> None).
    rewrite (select_loop base_url before None Hbefore).
    cbn [mbind result_bind for_each]. unfold select_step.
    rewrite decide_False by (intros Hne; by apply Hne).
    by rewrite Hparse. }
  split; [done|]. intros net sched root Hperiod <-.
  unfold _download_dash_audio. rewrite Hperiod.
  cbn [require mbind result_bind]. by rewrite Hselect.
Qed.

(** *** Progress lines *)


(** *** What the unpadding removes *)

Lemma unpad_prefix plain :
  unpad plain `prefix_of` plain
  ∧ (length plain - 16 ≤ length (unpad plain))%nat.
Proof.
  unfold unpad. destruct (last plain) as [b|]; [|split; [done|lia]].
  destruct (_ && _) eqn:Hcheck; [|split; [done|lia]].
  apply andb_true_iff in Hcheck as [Hrange _].
  apply andb_true_iff in Hrange as [_ Hle%Z.leb_le].
  unfold slice_but_last. split; [apply prefix_take|].
  rewrite length_take. lia.
Qed.

(** X6. Under a block primitive that maps blocks to blocks, what [_decrypt]
    returns is the CBC plaintext, which is as long as the data, or that
    plaintext without its last bytes, at most 16 of them: it never
    returns more than it was given nor drops more than one block. *)
Theorem decrypt_drops_at_most_a_block data key iv' res :
  (∀ key block, valid_key key = true → length block = block_size →
     length (aes_decrypt_block key block) = block_size) →
  _decrypt data key iv' = Ok res →
  ∃ plain,
    cbc_decrypt key iv' data = Ok plain
    ∧ res `prefix_of` plain
    ∧ length plain = length data
    ∧ (length data - 16 ≤ length res ≤ length data)%nat.
Proof.
  intros Hblock (plain & Hplain & ->)%decrypt_Ok. exists plain.
  pose proof (cbc_decrypt_length Hblock _ _ _ _ Hplain) as Hlen.
  destruct (unpad_prefix plain) as [Hprefix Hlower].
  split_and!; [done|done|done|lia|].
  rewrite <- Hlen. by apply prefix_length.
Qed.

(** *** The selected track *)

Lemma select_loop_parsed base_url sets cur selected :
  for_each (select_step base_url) sets cur = Ok selected →
  ∀ a, a ∈ filter is_audio sets →
       ∃ tr, _parse_adaptation_set a base_url = Ok tr.
Proof.
  revert cur. induction sets as [|adapt sets IH]; intros cur;
    [by intros _ a []%elem_of_nil|].
  cbn [for_each]. destruct (decide (is_audio adapt)) as [Haudio|Hother].
  - rewrite filter_cons_True by done.
    destruct (_parse_adaptation_set adapt base_url) as [tr|e] eqn:Hparse.
    + rewrite (select_step_audio _ _ _ _ Haudio Hparse).
      cbn [mbind result_bind]. intros Hrest a [->|Ha]%elem_of_cons.
      * by exists tr.
      * by eapply IH.
    + unfold select_step.
      rewrite decide_False by (intros Hne; by apply Hne).
      by rewrite Hparse.
  - rewrite filter_cons_False by done. rewrite select_step_skip by done.
    cbn [mbind result_bind]. apply IH.
Qed.

Lemma choose_elem cur audio adapt :
  choose cur audio = Some adapt → cur = Some adapt ∨ adapt ∈ audio.
Proof.
  revert cur. induction audio as [|a audio IH]; intros cur; [by left|].
  cbn [choose]. intros [Hcur|Hin]%IH; [|right; by right].
  destruct (_ || _); [|by left]. injection Hcur as ->. right. by left.
Qed.

(** X7. A selection that returns a track has parsed every audio set of the
    period, and the track it returns is what one of them was parsed to,
    with the label of that set. *)
Theorem selected_is_audio_set period base_url audio_track :
  select_audio_track period base_url = Ok (Some audio_track) →
  (∀ a, a ∈ audio_sets period →
        ∃ tr, _parse_adaptation_set a base_url = Ok tr)
  ∧ ∃ adapt tr,
      adapt ∈ audio_sets period
      ∧ _parse_adaptation_set adapt base_url = Ok tr
      ∧ audio_track = set_label (label_of adapt) tr
      ∧ label audio_track = Some (label_of adapt).
Proof.
  intros Hselect.
  assert (∀ a, a ∈ audio_sets period →
               ∃ tr, _parse_adaptation_set a base_url = Ok tr) as Hparsed
    by (by eapply select_loop_parsed).
  split; [done|].
  rewrite select_audio_track_choose in Hselect by done.
  destruct (choose None (audio_sets period)) as [adapt|] eqn:Hchoose; [|done].
  injection Hselect as <-.
  apply choose_elem in Hchoose as [[=]|Hin].
  destruct (Hparsed adapt Hin) as [tr Htr].
  exists adapt, tr. unfold selected_as. rewrite Htr. by split_and!.
Qed.

(** *** The sets [_parse_adaptation_set] accepts *)

Lemma timeline_loop_parsed s_elems st st' :
  for_each timeline_step s_elems st = Ok st' →
  ∃ entries, Forall2 parses_to s_elems entries.
Proof.
  revert st. induction s_elems as [|s_elem s_elems IH]; intros st.
  - intros _. exists []. constructor.
  - cbn [for_each].
    destruct (timeline_step st s_elem) as [st1|] eqn:Hstep; [|done].
    cbn [mbind result_bind]. intros [entries Hentries]%IH.
    unfold timeline_step in Hstep.
    destruct (int (get s_elem "d")) as [d|] eqn:Hd; [|done].
    cbn [mbind result_bind] in Hstep.
    destruct (int (Some (get_or s_elem "r" "0"))) as [r|] eqn:Hr; [|done].
    exists ((d, r) :: entries). by constructor.
Qed.

(** X8. A set is parsed to a track exactly when the text of its IV is
    hexadecimal, it has a SegmentTemplate child and a Representation
    child, the SegmentTemplate has a SegmentTimeline child, and [int]
    reads the [d] and the [r] of each [S] child of that timeline; a set
    without ContentProtection, without a key URL or without [S] children
    is accepted. *)
Theorem parse_succeeds_iff adapt base_url :
  (∃ tr, _parse_adaptation_set adapt base_url = Ok tr)
  ↔ (∃ iv_bytes, fromhex (replace (iv_hex adapt) "0x" "") = Ok iv_bytes)
    ∧ is_Some (find adapt (dash "Representation"))
    ∧ ∃ seg_tpl timeline entries,
        find adapt (dash "SegmentTemplate") = Some seg_tpl
        ∧ find seg_tpl (dash "SegmentTimeline") = Some timeline
        ∧ Forall2 parses_to (findall timeline (dash "S")) entries.
Proof.
  unfold _parse_adaptation_set. fold (iv_hex adapt). split.
  - intros [tr Hparse].
    destruct (fromhex (replace (iv_hex adapt) "0x" "")) as [iv_bytes|]
      eqn:Hiv; [|done].
    cbn [mbind result_bind] in Hparse.
    destruct (find adapt (dash "SegmentTemplate")) as [seg_tpl|]; [|done].
    cbn [require mbind result_bind] in Hparse.
    destruct (find adapt (dash "Representation")) as [rep|]; [|done].
    cbn [require mbind result_bind] in Hparse.
    destruct (find seg_tpl (dash "SegmentTimeline")) as [timeline|]
      eqn:Htimeline; [|done].
    cbn [require mbind result_bind] in Hparse.
    destruct (segment_timeline (findall timeline (dash "S"))) as [times|]
      eqn:Htimes; [|done].
    unfold segment_timeline in Htimes.
    destruct (for_each timeline_step _ _) as [st|] eqn:Hloop; [|done].
    apply timeline_loop_parsed in Hloop as [entries Hentries].
    split_and!; [by exists iv_bytes|done|].
    by exists seg_tpl, timeline, entries.
  - intros ([iv_bytes ->] & [rep ->] & seg_tpl & timeline & entries
            & -> & Htimeline & Hentries).
    cbn [require mbind result_bind]. rewrite Htimeline.
    cbn [require mbind result_bind].
    rewrite (segment_timeline_clock _ _ Hentries).
    cbn [mbind result_bind]. by eexists.
Qed.

(** *** Sessions that cannot succeed *)

Lemma selected_iv period base_url audio_track :
  select_audio_track period base_url = Ok (Some audio_track) →
  ∃ adapt,
    adapt ∈ audio_sets period
    ∧ fromhex (replace (iv_hex adapt) "0x" "") = Ok (iv audio_track).
Proof.
  intros Hselect.
  assert (∀ a, a ∈ audio_sets period →
               ∃ tr, _parse_adaptation_set a base_url = Ok tr) as Hparsed
    by (by eapply select_loop_parsed).
  rewrite select_audio_track_choose in Hselect by done.
  destruct (choose None (audio_sets period)) as [adapt|] eqn:Hchoose; [|done].
  injection Hselect as <-.
  apply choose_elem in Hchoose as [[=]|Hin].
  destruct (Hparsed adapt Hin) as [tr Htr].
  exists adapt. split; [done|]. unfold selected_as. rewrite Htr.
  by apply parsed_iv in Htr.
Qed.

(** X9. A manifest whose audio sets all come without a CryptoPeriod is
    never downloaded: the track selected has the empty IV, which the
    cipher refuses, so the session leaves no file and does not return
    True, whatever the network answers. *)
Theorem unprotected_never_downloads net sched root period o :
  find root (dash "Period") = Some period →
  (∀ adapt, adapt ∈ audio_sets period → crypto_period adapt = None) →
  _download_dash_audio net sched root = Some o →
  fmp4 o = None ∧ flac o = None ∧ returned o ≠ Ok true.
Proof.
  intros Hperiod Hplain [Hnone|Hrun]%download_inv; [done|].
  destruct Hrun as (period' & audio_track & key & content & init_data
                    & written & Hperiod' & Hselect & _ & _ & Hdecrypt & _).
  rewrite Hperiod in Hperiod'. injection Hperiod' as <-.
  apply selected_iv in Hselect as (adapt & Hin & Hiv).
  unfold iv_hex in Hiv. rewrite (Hplain adapt Hin) in Hiv.
  injection Hiv as Hiv.
  apply decrypt_Ok in Hdecrypt as (plain & Hplain' & _).
  apply cbc_decrypt_Ok in Hplain' as (_ & Hlen & _).
  by rewrite <- Hiv in Hlen.
Qed.


(** *** Strings *)

Lemma chars_of_chars l : chars (of_chars l) = l.
Proof. apply list_ascii_of_string_of_list_ascii. Qed.

Lemma length_chars s : length (chars s) = String.length s.
Proof.
  unfold chars. induction s as [|c s IH]; [done|]. cbn. by rewrite IH.
Qed.

Lemma take_drop_while {A} (p : A → bool) l :
  take_while p l ++ drop_while p l = l.
Proof.
  induction l as [|x l IH]; [done|]. cbn. destruct (p x); [|done].
  cbn. by rewrite IH.
Qed.

Lemma take_while_Forall {A} (p : A → bool) l :
  Forall (λ x, p x = true) (take_while p l).
Proof.
  induction l as [|x l IH]; cbn; [constructor|].
  destruct (p x) eqn:Hp; by constructor.
Qed.

Lemma drop_while_head {A} (p : A → bool) l x :
  head (drop_while p l) = Some x → p x = false.
Proof.
  induction l as [|y l IH]; [done|]. cbn. destruct (p y) eqn:Hp; [done|].
  cbn. by intros [= <-].
Qed.

Lemma drop_while_fixed {A} (p : A → bool) l :
  (∀ x, head l = Some x → p x = false) → drop_while p l = l.
Proof. destruct l as [|y l]; [done|]. cbn. intros Hhead. by rewrite Hhead. Qed.

(** Stripping keeps a stretch of the characters, which neither starts
    nor ends with a character that is stripped. *)
Lemma strip_list_stretch p l :
  ∃ before after, l = before ++ strip_list p l ++ after.
Proof.
  unfold strip_list. exists (take_while p l).
  exists (reverse (take_while p (reverse (drop_while p l)))).
  rewrite <- reverse_app, take_drop_while, reverse_involutive.
  by rewrite take_drop_while.
Qed.

Lemma strip_list_ends p l c :
  head (strip_list p l) = Some c ∨ last (strip_list p l) = Some c →
  p c = false.
Proof.
  unfold strip_list. intros [Hhead|Hlast].
  - apply (drop_while_head p l).
    rewrite <- (reverse_involutive (drop_while p l)).
    rewrite <- (take_drop_while p (reverse (drop_while p l))) at 1.
    rewrite reverse_app.
    destruct (reverse (drop_while p (reverse (drop_while p l)))); [done|].
    done.
  - rewrite last_reverse in Hlast. by eapply drop_while_head.
Qed.

Lemma strip_list_fixed p l :
  (∀ c, head l = Some c ∨ last l = Some c → p c = false) →
  strip_list p l = l.
Proof.
  intros Hends. unfold strip_list.
  rewrite (drop_while_fixed p l) by (intros c Hc; apply Hends; by left).
  rewrite drop_while_fixed; [apply reverse_involutive|].
  intros c Hc. apply Hends. right. by rewrite <- head_reverse.
Qed.

Lemma strip_list_idempotent p l :
  strip_list p (strip_list p l) = strip_list p l.
Proof. apply strip_list_fixed. intros c. apply strip_list_ends. Qed.

Lemma strip_idempotent s : strip (strip s) = strip s.
Proof. unfold strip. by rewrite chars_of_chars, strip_list_idempotent. Qed.

(** *** [_sanitize_filename] *)

Lemma replaced_not_reserved c :
  reserved (if reserved c then "_"%char else c) = false.
Proof. destruct (reserved c) eqn:Hc; [by vm_compute|done]. Qed.

(** The function on the characters of the name. *)
Lemma sanitize_filename_chars name :
  let kept :=
    strip_list (λ c, bool_decide (c ∈ chars ". "))
               ((λ c, if reserved c then "_"%char else c) <$> chars name) in
  _sanitize_filename name
  = match kept with
    | [] => "audio"
    | _ => of_chars (take 200 kept)
    end.
Proof.
  intros kept. unfold _sanitize_filename, strip_chars.
  rewrite chars_of_chars. fold kept. destruct kept as [|c kept]; [done|].
  change (of_chars (c :: kept)) with (String c (of_chars kept)).
  unfold slice_to.
  change (String c (of_chars kept)) with (of_chars (c :: kept)).
  by rewrite chars_of_chars.
Qed.

Lemma kept_not_reserved name :
  Forall (λ c, reserved c = false)
         (strip_list (λ c, bool_decide (c ∈ chars ". "))
            ((λ c, if reserved c then "_"%char else c) <$> chars name)).
Proof.
  destruct (strip_list_stretch (λ c, bool_decide (c ∈ chars ". "))
              ((λ c, if reserved c then "_"%char else c) <$> chars name))
    as (before & after & Hstretch).
  assert (Forall (λ c, reserved c = false)
            ((λ c, if reserved c then "_"%char else c) <$> chars name)) as Hall.
  { apply Forall_fmap, Forall_true. intros c. apply replaced_not_reserved. }
  rewrite Hstretch in Hall.
  by apply Forall_app in Hall as [_ [Hkept _]%Forall_app].
Qed.

(** X11. The name [_sanitize_filename] returns is never empty and never
    longer than 200 characters, contains none of the characters the
    substitution replaces, and does not start with a dot or a space. *)
Theorem sanitize_filename_safe name :
  _sanitize_filename name ≠ EmptyString
  ∧ (String.length (_sanitize_filename name) ≤ 200)%nat
  ∧ Forall (λ c, reserved c = false) (chars (_sanitize_filename name))
  ∧ (∀ c, head (chars (_sanitize_filename name)) = Some c →
          c ≠ "."%char ∧ c ≠ " "%char).
Proof.
  rewrite sanitize_filename_chars.
  pose proof (kept_not_reserved name) as Hkept.
  pose proof (strip_list_ends (λ c, bool_decide (c ∈ chars ". "))
                ((λ c, if reserved c then "_"%char else c) <$> chars name))
    as Hends.
  destruct (strip_list _ _) as [|c kept] eqn:Hstrip.
  { split_and!; [done|cbn; lia|by vm_compute; repeat constructor|].
    intros c [= <-]. by split. }
  rewrite <- length_chars, chars_of_chars. split_and!.
  - done.
  - rewrite length_take. lia.
  - by apply Forall_take.
  - intros c' [= <-]. specialize (Hends c (or_introl eq_refl)).
    apply bool_decide_eq_false_1 in Hends.
    split; intros ->; apply Hends; vm_compute; [left|right; left].
Qed.

(** X12. A name of at most 200 characters is sanitized once and for all:
    sanitizing the result again changes nothing. *)
Theorem sanitize_filename_idempotent name :
  (String.length name ≤ 200)%nat →
  _sanitize_filename (_sanitize_filename name) = _sanitize_filename name.
Proof.
  intros Hlen. rewrite (sanitize_filename_chars name).
  pose proof (kept_not_reserved name) as Hkept.
  pose proof (strip_list_ends (λ c, bool_decide (c ∈ chars ". "))
                ((λ c, if reserved c then "_"%char else c) <$> chars name))
    as Hends.
  destruct (strip_list_stretch (λ c, bool_decide (c ∈ chars ". "))
              ((λ c, if reserved c then "_"%char else c) <$> chars name))
    as (before & after & Hstretch).
  apply (f_equal length) in Hstretch.
  rewrite length_fmap, length_chars, !length_app in Hstretch.
  destruct (strip_list _ _) as [|c kept] eqn:Hstrip; [by vm_compute|].
  rewrite take_ge by lia.
  rewrite sanitize_filename_chars, chars_of_chars.
  assert ((λ c, if reserved c then "_"%char else c) <$> c :: kept = c :: kept)
    as ->.
  { clear -Hkept. induction Hkept as [|c' l Hc' _ IH]; [done|].
    cbn. by rewrite Hc', IH. }
  rewrite strip_list_fixed by done. by rewrite take_ge by lia.
Qed.

(** *** [_parse_args] *)

Lemma index_app {A} `{EqDecision A} (x : A) before rest :
  x ∉ before → index x (before ++ x :: rest) = Some (length before).
Proof.
  induction before as [|y before IH]; intros Hnotin; cbn.
  - by rewrite decide_True.
  - apply not_elem_of_cons in Hnotin as [Hne Hnotin].
    rewrite decide_False by done. by rewrite IH.
Qed.

Lemma index_split {A} `{EqDecision A} (x : A) l i :
  index x l = Some i →
  ∃ before rest, l = before ++ x :: rest ∧ (x ∉ before) ∧ length before = i.
Proof.
  revert i. induction l as [|y l IH]; intros i; [done|]. cbn.
  destruct (decide (y = x)) as [->|Hne].
  - intros [= <-]. exists [], l. split_and!; [done| |done].
    by intros []%elem_of_nil.
  - destruct (index x l) as [j|]; [|done]. intros [= <-].
    destruct (IH j eq_refl) as (before & rest & -> & Hnotin & <-).
    exists (y :: before), rest. split_and!; [done| |done].
    apply not_elem_of_cons. by split.
Qed.

(** The loop collects the arguments from [idx] on, up to the first that
    starts with two dashes. *)
Lemma collect_urls_take_while fuel args idx urls :
  (length args - idx ≤ fuel)%nat →
  collect_urls fuel args idx urls
  = urls ++ take_while (λ arg, negb (startswith arg "--")) (drop idx args).
Proof.
  revert idx urls. induction fuel as [|fuel IH]; intros idx urls Hfuel.
  - cbn. rewrite drop_ge by lia. by rewrite app_nil_r.
  - cbn [collect_urls]. destruct (args !! idx) as [arg|] eqn:Harg.
    + rewrite (drop_S _ _ _ Harg). cbn [take_while].
      destruct (negb (startswith arg "--")); [|by rewrite app_nil_r].
      rewrite IH by lia. rewrite <- app_assoc.
      by replace (idx + 1)%nat with (S idx) by lia.
    + apply lookup_ge_None in Harg. rewrite drop_ge by lia.
      by rewrite app_nil_r.
Qed.

Lemma file_urls_clean content :
  Forall (λ u, u ≠ EmptyString ∧ strip u = u ∧ startswith u "#" = false)
         (file_urls content).
Proof.
  unfold file_urls. apply Forall_forall.
  intros u (line & -> & Hline)%list_elem_of_fmap.
  apply list_elem_of_filter in Hline as [[Hne Hcomment] _].
  by rewrite strip_idempotent.
Qed.

(** The generator keeps the stripped lines that are neither empty nor
    comments, in the order of the file. *)
Lemma file_urls_filter content :
  file_urls content
  = filter (λ u, u ≠ EmptyString ∧ startswith u "#" = false)
           (strip <$> splitlines content).
Proof.
  unfold file_urls. induction (splitlines content) as [|line lines IH];
    [done|].
  rewrite fmap_cons, !filter_cons, <- IH.
  by destruct (decide (strip line ≠ EmptyString
                       ∧ startswith (strip line) "#" = false)).
Qed.

(** X13. The URLs of the command line are the arguments that follow the
    first [--urls], up to the first argument that starts with two
    dashes; what [_parse_args] returns is these URLs followed by the
    lines of the file named after the first [--urls-file], each
    stripped, none empty and none a comment. A file that can be read
    contributes every such line, in the order of the file; one that
    cannot makes [_parse_args] raise; a [--urls-file] that is the last
    argument or names no file is ignored without a word. *)
Theorem parse_args_urls args fs :
  Forall (λ u, u ∈ args ∧ startswith u "--" = false) (cli_urls args)
  ∧ (∀ before rest, args = before ++ "--urls" :: rest → "--urls" ∉ before →
       cli_urls args = take_while (λ arg, negb (startswith arg "--")) rest)
  ∧ (∀ urls, _parse_args args fs = Some urls →
       ∃ from_file,
         urls = cli_urls args ++ from_file
         ∧ Forall (λ u, u ≠ EmptyString ∧ strip u = u
                        ∧ startswith u "#" = false) from_file
         ∧ (from_file = []
            ∨ ∃ before path rest content,
                args = before ++ "--urls-file" :: path :: rest
                ∧ ("--urls-file" ∉ before)
                ∧ fs path = Some (Text content)
                ∧ from_file = file_urls content
                ∧ Forall (λ u, ∃ line, line ∈ splitlines content
                                       ∧ u = strip line) from_file))
  ∧ (∀ before path rest,
       args = before ++ "--urls-file" :: path :: rest →
       "--urls-file" ∉ before →
       _parse_args args fs
       = match fs path with
         | Some (Text content) =>
             Some (cli_urls args
                   ++ filter (λ u, u ≠ EmptyString ∧ startswith u "#" = false)
                             (strip <$> splitlines content))
         | Some Unreadable => None
         | None => Some (cli_urls args)
         end)
  ∧ ((∀ i path, index "--urls-file" args = Some i →
        args !! (i + 1)%nat = Some path → fs path = None) →
     _parse_args args fs = Some (cli_urls args)).
Proof.
  assert (∀ i, collect_urls (length args) args (i + 1) [] =
    take_while (λ arg, negb (startswith arg "--")) (drop (i + 1) args))
    as Hloop by (intros i; by rewrite collect_urls_take_while by lia).
  assert (_parse_args args fs
          = match index "--urls-file" args with
            | Some i =>
                match args !! (i + 1)%nat with
                | Some path =>
                    match fs path with
                    | Some (Text content) =>
                        Some (cli_urls args ++ file_urls content)
                    | Some Unreadable => None
                    | None => Some (cli_urls args)
                    end
                | None => Some (cli_urls args)
                end
            | None => Some (cli_urls args)
            end) as Hargs.
  { unfold _parse_args, cli_urls.
    destruct (index "--urls" args); [by rewrite Hloop|done]. }
  split_and!.
  - unfold cli_urls. destruct (index "--urls" args) as [i|]; [|constructor].
    pose proof (take_while_Forall (λ arg, negb (startswith arg "--"))
                                  (drop (i + 1) args)) as Hall.
    pose proof (take_drop_while (λ arg, negb (startswith arg "--"))
                                (drop (i + 1) args)) as Hsplit.
    apply Forall_forall. intros u Hu. split.
    + assert (u ∈ drop (i + 1) args) as Hdrop
        by (rewrite <- Hsplit, elem_of_app; by left).
      rewrite <- (take_drop (i + 1)%nat args), elem_of_app. by right.
    + rewrite Forall_forall in Hall. apply Hall in Hu.
      by apply negb_true_iff in Hu.
  - intros before rest -> Hnotin. unfold cli_urls.
    rewrite index_app by done.
    rewrite (cons_middle "--urls" before rest), app_assoc.
    by rewrite drop_app_length' by (by rewrite length_app).
  - intros urls. rewrite Hargs.
    assert (∃ from_file : list string,
      cli_urls args = cli_urls args ++ from_file
      ∧ Forall (λ u, u ≠ EmptyString ∧ strip u = u
                     ∧ startswith u "#" = false) from_file
      ∧ (from_file = []
         ∨ ∃ before path rest content,
             args = before ++ "--urls-file" :: path :: rest
             ∧ ("--urls-file" ∉ before)
             ∧ fs path = Some (Text content)
             ∧ from_file = file_urls content
             ∧ Forall (λ u, ∃ line, line ∈ splitlines content
                                    ∧ u = strip line) from_file)) as Hnothing.
    { exists []. split_and!; [by rewrite app_nil_r|constructor|by left]. }
    destruct (index "--urls-file" args) as [i|] eqn:Hi;
      [|by intros [= <-]].
    destruct (args !! (i + 1)%nat) as [path|] eqn:Hpath;
      [|by intros [= <-]].
    destruct (fs path) as [[content|]|] eqn:Hfs; [|done|by intros [= <-]].
    intros [= <-]. exists (file_urls content).
    split_and!; [done|apply file_urls_clean|right].
    destruct (index_split _ _ _ Hi) as (before & rest0 & -> & Hnotin & Hlen).
    rewrite lookup_app_r in Hpath by lia.
    replace (i + 1 - length before)%nat with 1%nat in Hpath by lia.
    destruct rest0 as [|path' rest]; [done|]. injection Hpath as ->.
    exists before, path, rest, content. split_and!; try done.
    unfold file_urls. apply Forall_forall.
    intros u (line & -> & Hline)%list_elem_of_fmap.
    apply list_elem_of_filter in Hline as [_ Hline]. by exists line.
  - intros before path rest Hsplit Hnotin. rewrite Hargs.
    assert (index "--urls-file" args = Some (length before)) as ->
      by (rewrite Hsplit; by apply index_app).
    assert (args !! (length before + 1)%nat = Some path) as ->.
    { rewrite Hsplit, lookup_app_r by lia.
      by replace (length before + 1 - length before)%nat with 1%nat by lia. }
    destruct (fs path) as [[content|]|]; [|done..].
    by rewrite file_urls_filter.
  - intros Hnone. rewrite Hargs.
    destruct (index "--urls-file" args) as [i|]; [|done].
    destruct (args !! (i + 1)%nat) as [path|] eqn:Hpath; [|done].
    by rewrite (Hnone i path).
Qed.

(** *** [on_response] *)

Lemma on_response_cases captured response :
  let ct := lower (default EmptyString (content_type response)) in
  on_response captured response = captured
  ∨ on_response captured response = captured ++ [(rurl response, ct)]
    ∧ (status response = 200 ∨ status response = 206)
    ∧ contains "stream.aspx" (rurl response) = false.
Proof.
  intros ct. unfold on_response. fold ct.
  destruct (bool_decide (status response ∈ [200; 206])) eqn:Hstatus; [|by left].
  apply bool_decide_eq_true_1 in Hstatus.
  destruct (_ || _); [|by left].
  destruct (contains "stream.aspx" (rurl response)) eqn:Hstream; [by left|].
  right. split_and!; [done| |done].
  rewrite !elem_of_cons in Hstatus.
  destruct Hstatus as [?|[?|[]%elem_of_nil]]; auto.
Qed.

Lemma on_response_manifest captured response :
  status response = 200 ∨ status response = 206 →
  contains ".mpd" (lower (rurl response)) = true →
  contains "stream.aspx" (rurl response) = false →
  on_response captured response
  = captured ++ [(rurl response,
                  lower (default EmptyString (content_type response)))].
Proof.
  intros Hstatus Hmpd Hstream. unfold on_response.
  rewrite bool_decide_eq_true_2
    by (rewrite !elem_of_cons; destruct Hstatus; auto).
  rewrite Hstream. cbn [existsb negb]. rewrite Hmpd.
  by rewrite !orb_true_r.
Qed.

(** X14. What the listener has captured after the responses of a page load:
    every entry is the URL and the lower-cased content type of a
    response with status 200 or 206 whose URL does not contain
    [stream.aspx]; there is at most one entry per response; and every
    such response whose URL contains [.mpd], in whatever case, has its
    entry. *)
Theorem captured_responses responses :
  Forall (captured_from responses) (foldl on_response [] responses)
  ∧ (length (foldl on_response [] responses) ≤ length responses)%nat
  ∧ ∀ response,
      response ∈ responses →
      status response = 200 ∨ status response = 206 →
      contains ".mpd" (lower (rurl response)) = true →
      contains "stream.aspx" (rurl response) = false →
      (rurl response, lower (default EmptyString (content_type response)))
      ∈ foldl on_response [] responses.
Proof.
  induction responses as [|response responses IH] using rev_ind.
  { split_and!; [constructor|done|]. by intros response []%elem_of_nil. }
  destruct IH as (Hfrom & Hlen & Hmanifest).
  rewrite foldl_app, length_app. cbn [foldl length].
  assert (Forall (captured_from (responses ++ [response]))
                 (foldl on_response [] responses)) as Hfrom'.
  { eapply Forall_impl; [exact Hfrom|].
    intros entry (Hstream & response0 & Hin & Hrest).
    split; [done|]. exists response0. rewrite elem_of_app. auto. }
  split_and!.
  - destruct (on_response_cases (foldl on_response [] responses) response)
      as [->|(-> & Hstatus & Hstream)]; [done|].
    apply Forall_app. split; [done|]. constructor; [|constructor].
    split; [done|]. exists response.
    rewrite elem_of_app, list_elem_of_singleton. auto.
  - destruct (on_response_cases (foldl on_response [] responses) response)
      as [->|(-> & _)]; [lia|]. rewrite length_app. cbn. lia.
  - intros response0 [Hin| ->%list_elem_of_singleton]%elem_of_app
      Hstatus Hmpd Hstream.
    + specialize (Hmanifest response0 Hin Hstatus Hmpd Hstream).
      destruct (on_response_cases (foldl on_response [] responses) response)
        as [->|(-> & _)]; [done|]. rewrite elem_of_app. by left.
    + rewrite on_response_manifest by done.
      rewrite elem_of_app, list_elem_of_singleton. by right.
Qed.

(** *** The manifest search *)

Lemma requests_so_far (url u : string) before seen :
  length (filter (.= url) (before ++ u :: seen))
  = length (filter (.= url) (u :: before ++ seen)).
Proof.
  rewrite filter_app, !filter_cons, filter_app.
  destruct (decide (u = url)); rewrite ?length_app; cbn;
    rewrite ?length_app; lia.
Qed.

Lemma find_manifest_first net seen captured text :
  find_manifest net seen captured = Some text →
  ∃ before cap_url cap_ct after content,
    captured = before ++ (cap_url, cap_ct) :: after
    ∧ find_manifest net seen before = None
    ∧ net cap_url (length (filter (.= cap_url) (before.*1 ++ seen)))
      = Response 200 content
    ∧ decode content = Ok text
    ∧ contains "<MPD" (slice_to 500 text) = true.
Proof.
  revert seen. induction captured as [|[u ct] rest IH]; intros seen; [done|].
  cbn [find_manifest].
  assert (find_manifest net (u :: seen) rest = Some text →
    (∀ before, find_manifest net (u :: seen) before = None →
               find_manifest net seen ((u, ct) :: before) = None) →
    ∃ before cap_url cap_ct after content,
      (u, ct) :: rest = before ++ (cap_url, cap_ct) :: after
      ∧ find_manifest net seen before = None
      ∧ net cap_url (length (filter (.= cap_url) (before.*1 ++ seen)))
        = Response 200 content
      ∧ decode content = Ok text
      ∧ contains "<MPD" (slice_to 500 text) = true) as Hcontinue.
  { intros (before & cap_url & cap_ct & after & content & -> & Hnone & Hget
            & Hdecode & Hmpd)%IH Hskip.
    exists ((u, ct) :: before), cap_url, cap_ct, after, content.
    split_and!; [done|by apply Hskip| |done|done].
    rewrite requests_so_far in Hget. exact Hget. }
  destruct (net u (length (filter (.= u) seen))) as [status_code content|]
    eqn:Hget.
  - destruct (status_code =? 200) eqn:Hstatus; cbn [negb].
    + apply Z.eqb_eq in Hstatus as ->.
      destruct (decode content) as [text'|] eqn:Hdecode.
      * destruct (contains "<MPD" (slice_to 500 text')) eqn:Hmpd.
        -- intros [= ->]. by exists [], u, ct, rest, content.
        -- intros Hrest. apply Hcontinue; [done|]. intros before Hnone.
           cbn [find_manifest]. by rewrite Hget, Hdecode, Hmpd.
      * intros Hrest. apply Hcontinue; [done|]. intros before Hnone.
        cbn [find_manifest]. by rewrite Hget, Hdecode.
    + intros Hrest. apply Hcontinue; [done|]. intros before Hnone.
      cbn [find_manifest]. by rewrite Hget, Hstatus.
  - intros Hrest. apply Hcontinue; [done|]. intros before Hnone.
    cbn [find_manifest]. by rewrite Hget.
Qed.

(** X15. The manifest [download_audio] goes on with is the decoded body of
    the first captured URL that answers with a 200 and has the text
    [<MPD] within its first 500 characters: the search over the URLs
    captured before it, each requested in turn, has found nothing. *)
Theorem manifest_is_first_match net captured text :
  find_manifest net [] captured = Some text →
  ∃ before cap_url cap_ct after content,
    captured = before ++ (cap_url, cap_ct) :: after
    ∧ find_manifest net [] before = None
    ∧ net cap_url (length (filter (.= cap_url) before.*1))
      = Response 200 content
    ∧ decode content = Ok text
    ∧ contains "<MPD" (slice_to 500 text) = true.
Proof.
  intros Hfound. apply find_manifest_first in Hfound
    as (before & cap_url & cap_ct & after & content & Hfound).
  rewrite app_nil_r in Hfound.
  by exists before, cap_url, cap_ct, after, content.
Qed.

(** *** [_is_retryable_error] *)

Lemma exception_causes_ind (P : exception → Prop) :
  (∀ name msg code, P (Exc name msg code None)) →
  (∀ name msg code c, P c → P (Exc name msg code (Some c))) →
  ∀ exc, P exc.
Proof.
  intros Hlast Hcause. fix IH 1.
  intros [name msg code [c|]]; [apply Hcause, IH|apply Hlast].
Qed.

Lemma prefix_app_l a b s :
  String.prefix (a +:+ b) s = true → String.prefix a s = true.
Proof.
  revert s. induction a as [|c a IH]; intros s; [by destruct s|].
  destruct s as [|c' s]; [done|].
  change (String.prefix (String c (a +:+ b)) (String c' s) = true
          → String.prefix (String c a) (String c' s) = true).
  cbn [String.prefix]. destruct (ascii_dec c c'); [apply IH|done].
Qed.

Lemma contains_app_l a b s : contains (a +:+ b) s = true → contains a s = true.
Proof.
  induction s as [|c s IH]; cbn [contains]; rewrite !orb_true_iff.
  - intros [Hprefix|[=]]. left. by eapply prefix_app_l.
  - intros [Hprefix|Hrest]; [left; by eapply prefix_app_l|right; by apply IH].
Qed.

(** The check on one exception, before its cause is looked at. *)
Lemma retryable_unfold exc :
  _is_retryable_error exc = true
  ↔ transient exc
    ∨ ∃ c, cause exc = Some c ∧ _is_retryable_error c = true.
Proof.
  destruct exc as [name msg code c]. cbn [_is_retryable_error type_name
    message status_code cause]. unfold transient. cbn [type_name message
    status_code].
  destruct (existsb _ _) eqn:Hind.
  { split; [intros _|done]. left. left.
    apply existsb_exists in Hind as (ind & Hin & Hmention).
    apply orb_true_iff in Hmention.
    cbn in Hin. destruct Hin as [<-|[<-|[<-|[<-|[]]]]].
    - exists "connection". split; [rewrite !elem_of_cons; auto|done].
    - exists "timeout". split; [rewrite !elem_of_cons; auto|done].
    - exists "remotedisconnected". split; [rewrite !elem_of_cons; auto|done].
    - exists "connection". split; [rewrite !elem_of_cons; auto|].
      destruct Hmention as [Hmention|Hmention]; [left|right];
        by apply (contains_app_l "connection" "reset"). }
  assert (¬ ∃ ind, ind ∈ ["connection"; "timeout"; "remotedisconnected"]
                   ∧ (contains ind (lower name) = true
                      ∨ contains ind (lower msg) = true)) as Hnone.
  { intros (ind & Hin & Hmention).
    assert (existsb (λ ind, contains ind (lower name)
                            || contains ind (lower msg))
              ["connection"; "timeout"; "remotedisconnected";
               "connectionreset"] = true) as Habsurd; [|congruence].
    apply existsb_exists. exists ind. split; [|by apply orb_true_iff].
    rewrite !elem_of_cons in Hin. cbn.
    destruct Hin as [->|[->|[->|[]%elem_of_nil]]]; auto. }
  destruct code as [code|].
  - destruct (bool_decide (code ∈ [500; 502; 503])) eqn:Hcode.
    + apply bool_decide_eq_true_1 in Hcode. split; [intros _|done].
      left. right. exists code. split; [done|].
      rewrite !elem_of_cons in Hcode.
      destruct Hcode as [->|[->|[->|[]%elem_of_nil]]]; auto.
    + apply bool_decide_eq_false_1 in Hcode. split.
      * destruct c as [c|]; [|done]. intros Hc. right. by exists c.
      * intros [[Hind'|(code' & [= <-] & Hcode')]|(c' & -> & Hc)];
          [done| |done].
        destruct Hcode. rewrite !elem_of_cons. tauto.
  - split.
    + destruct c as [c|]; [|done]. intros Hc. right. by exists c.
    + by intros [[Hind'|(code' & [=] & _)]|(c' & -> & Hc)].
Qed.

(** X16. An exception is retryable exactly when it or one of its causes,
    however deep, tells of a transient failure by itself: a connection,
    a timeout or a remote disconnection in its type name or message, or
    a status code of 500, 502 or 503. *)
Theorem retryable_iff_transient_cause exc :
  _is_retryable_error exc = true ↔ Exists transient (causes exc).
Proof.
  induction exc as [name msg code|name msg code c IH]
    using exception_causes_ind; rewrite retryable_unfold; cbn [causes cause].
  - rewrite Exists_cons, Exists_nil.
    split; [intros [?|(c & [=] & _)]; by left|intros [?|[]]; by left].
  - rewrite Exists_cons, <- IH. split.
    + intros [?|(c0 & [= <-] & ?)]; auto.
    + intros [?|?]; [by left|right; by exists c].
Qed.

(** *** [_transcribe_with_retry] *)

(** X17. A part is transcribed by at most three calls, each but the first
    after a sleep, of 2 and then of 4 seconds; a call is made again
    only after a retryable exception; the function returns what the
    last call returned or raises what it raised, which for the first
    and the second call is an exception that is not retryable, and it
    never runs out of its loop to return [None]. *)
Theorem retry_schedule single part_path :
  let r := _transcribe_with_retry single part_path in
  let retries := length (waits r.2) in
  r.1 ≠ inr None
  ∧ calls r.2 = S retries
  ∧ (calls r.2 ≤ 3)%nat
  ∧ waits r.2 `prefix_of` [2; 4]
  ∧ (∀ j, (j < retries)%nat →
       ∃ e, single j = inl e ∧ _is_retryable_error e = true)
  ∧ match r.1 with
    | inl e =>
        single retries = inl e
        ∧ (retries = 2%nat ∨ _is_retryable_error e = false)
    | inr (Some segments) => single retries = inr segments
    | inr None => False
    end.
Proof.
  unfold _transcribe_with_retry.
  change (range 1 (MAX_PART_RETRIES + 1) 1) with [1; 2; 3]%nat.
  cbn [retry_attempts].
  change (1 - 1)%nat with 0%nat. change (2 - 1)%nat with 1%nat.
  change (3 - 1)%nat with 2%nat.
  change (1 <? MAX_PART_RETRIES)%nat with true.
  change (2 <? MAX_PART_RETRIES)%nat with true.
  change (3 <? MAX_PART_RETRIES)%nat with false.
  change (RETRY_BASE_DELAY * 2 ^ (Z.of_nat 1 - 1)) with 2.
  change (RETRY_BASE_DELAY * 2 ^ (Z.of_nat 2 - 1)) with 4.
  cbn [andb].
  destruct (single 0%nat) as [e0|segments0] eqn:Hcall0;
    [destruct (_is_retryable_error e0) eqn:Hretry0;
     [destruct (single 1%nat) as [e1|segments1] eqn:Hcall1;
      [destruct (_is_retryable_error e1) eqn:Hretry1;
       [destruct (single 2%nat) as [e2|segments2] eqn:Hcall2|]|]|]|];
    cbn; split_and!;
    first [done|lia|by exists [2; 4]|by exists [4]|by exists []
          |intros [|[|j]] Hj; first [lia|by eexists]|by auto].
Qed.

(** *** [_filter_hallucinations] *)

Lemma filter_bool_sublist {A} (f : A → bool) l :
  List.filter f l `sublist_of` l.
Proof.
  induction l as [|x l IH]; [done|]. cbn.
  destruct (f x); [by apply sublist_skip|by apply sublist_cons].
Qed.

Lemma filter_bool_idempotent {A} (f : A → bool) l :
  List.filter f (List.filter f l) = List.filter f l.
Proof.
  induction l as [|x l IH]; [done|]. cbn.
  destruct (f x) eqn:Hx; [|done]. cbn. by rewrite Hx, IH.
Qed.

(** A segment that is not taken for a hallucination has a text that is
    not blank and contains none of the patterns, in whatever case, and
    is not a short segment with many words. *)
Lemma not_hallucination seg :
  _is_hallucination seg = false →
  strip (seg_text seg) ≠ EmptyString
  ∧ (∀ p, p ∈ HALLUCINATION_PATTERNS →
          contains p (strip (lower (seg_text seg))) = false)
  ∧ (num_lt (num_sub (seg_end seg) (seg_start seg))
            HALLUCINATION_MIN_DURATION = false
     ∨ Z.of_nat (length (split (strip (seg_text seg))))
       ≤ HALLUCINATION_MAX_WORDS).
Proof.
  unfold _is_hallucination.
  destruct (_ && _) eqn:Hshort; [done|].
  destruct (bool_decide _) eqn:Hblank; [done|].
  apply bool_decide_eq_false_1 in Hblank. intros Hpatterns.
  split_and!; [done| |].
  - intros p Hp. destruct (contains p _) eqn:Hcontains; [|done].
    rewrite <- Hpatterns. symmetry. apply existsb_exists.
    exists p. split; [by apply list_elem_of_In|done].
  - apply andb_false_iff in Hshort as [Hlong|Hfew]; [by left|right].
    by apply Z.ltb_ge in Hfew.
Qed.

(** X18. The filter returns the segments that are not taken for
    hallucinations, in their order, and the number of those it left
    out; each segment it keeps has a text that is not blank and
    contains no pattern, and is not a short segment with many words;
    filtering what it returned leaves out nothing more. *)
Theorem filter_hallucinations_keeps segments :
  let r := _filter_hallucinations segments in
  r.1 `sublist_of` segments
  ∧ 0 ≤ r.2
  ∧ Z.of_nat (length r.1) + r.2 = Z.of_nat (length segments)
  ∧ Forall (λ seg,
              strip (seg_text seg) ≠ EmptyString
              ∧ (∀ p, p ∈ HALLUCINATION_PATTERNS →
                      contains p (strip (lower (seg_text seg))) = false)
              ∧ (num_lt (num_sub (seg_end seg) (seg_start seg))
                        HALLUCINATION_MIN_DURATION = false
                 ∨ Z.of_nat (length (split (strip (seg_text seg))))
                   ≤ HALLUCINATION_MAX_WORDS)) r.1
  ∧ (∀ seg, seg ∈ segments → seg ∉ r.1 → _is_hallucination seg = true)
  ∧ _filter_hallucinations r.1 = (r.1, 0).
Proof.
  unfold _filter_hallucinations. cbn [fst snd].
  pose proof (filter_bool_sublist (λ s, negb (_is_hallucination s)) segments)
    as Hsub.
  pose proof (sublist_length _ _ Hsub) as Hlen.
  split_and!; [done|lia|lia| | |].
  - apply Forall_forall. intros seg [_ Hseg]%list_elem_of_In%filter_In.
    apply not_hallucination. by apply negb_true_iff.
  - intros seg Hin Hout. destruct (_is_hallucination seg) eqn:Hseg; [done|].
    destruct Hout. apply list_elem_of_In, filter_In.
    split; [by apply list_elem_of_In|by rewrite Hseg].
  - rewrite filter_bool_idempotent. f_equal. lia.
Qed.

(** *** [_split_and_transcribe] *)

Lemma retry_never_none single part_path :
  (_transcribe_with_retry single part_path).1 ≠ inr None.
Proof.
  unfold _transcribe_with_retry.
  change (range 1 (MAX_PART_RETRIES + 1) 1) with [1; 2; 3]%nat.
  cbn [retry_attempts].
  change (3 <? MAX_PART_RETRIES)%nat with false. cbn [andb].
  repeat match goal with
         | |- context [match ?x with inl _ => _ | inr _ => _ end] =>
             destruct x
         | |- context [if ?b then _ else _] => destruct b
         end; done.
Qed.

Lemma unlink_parts_elem file_path parts fs p :
  p ∈ unlink_parts file_path parts fs
  ↔ p ∈ fs ∧ (p ∈ parts → p = file_path).
Proof.
  unfold unlink_parts. revert fs.
  induction parts as [|part_path parts IH]; intros fs; cbn [foldl].
  - split; [intros Hp; split; [done|by intros []%elem_of_nil]|by intros [? _]].
  - rewrite IH, elem_of_cons. case_bool_decide as Hunlink.
    + rewrite elem_of_difference, elem_of_singleton. split.
      * intros [[Hp Hne] Hparts]. split; [done|]. by intros [->|Hin]; auto.
      * intros [Hp Hparts]. split_and!; [done| |auto].
        intros ->. destruct Hunlink as [_ Hne]. apply Hne. auto.
    + split.
      * intros [Hp Hparts]. split; [done|]. intros [->|Hin]; [|auto].
        destruct (decide (part_path = file_path)); [done|].
        by destruct Hunlink.
      * intros [Hp Hparts]. auto.
Qed.

(** X19. Whether the transcription of the parts returns or raises, the
    parts are unlinked and nothing else is: afterwards a path exists
    exactly when it existed before and is not a part, or is the file
    itself, so that the file survives even when [split_audio] returned
    it as its only part. *)
Theorem parts_unlinked zero single get_duration file_path parts fs :
  let r := _split_and_transcribe zero single get_duration file_path parts fs in
  (∀ p, p ∈ r.2 ↔ p ∈ fs ∧ (p ∈ parts → p = file_path))
  ∧ (file_path ∈ fs → file_path ∈ r.2)
  ∧ (∀ p, p ∈ parts → p ≠ file_path → p ∉ r.2)
  ∧ r.2 ⊆ fs.
Proof.
  cbn [_split_and_transcribe snd]. split_and!.
  - intros p. apply unlink_parts_elem.
  - intros Hfile. by apply unlink_parts_elem.
  - intros p Hp Hne [_ Hkept]%unlink_parts_elem. auto.
  - intros p [Hp _]%unlink_parts_elem. done.
Qed.

Lemma shift_texts time_offset (segments : list (segment num)) :
  seg_text <$> (shift time_offset <$> segments) = seg_text <$> segments.
Proof. rewrite <- list_fmap_compose. by apply list_fmap_ext. Qed.

Lemma transcribe_parts_returns single get_duration parts all_segments
    time_offset merged :
  transcribe_parts single get_duration parts all_segments time_offset
  = inr merged →
  ∃ per_part,
    Forall2 (λ part_path segments,
               part_result single part_path = inr (Some segments))
            parts per_part
    ∧ seg_text <$> merged
      = (seg_text <$> all_segments) ++ (seg_text <$> mjoin per_part).
Proof.
  revert all_segments time_offset.
  induction parts as [|part_path parts IH]; intros all_segments time_offset.
  - cbn. intros [= <-]. exists []. split; [constructor|by rewrite app_nil_r].
  - cbn [transcribe_parts]. fold (part_result single part_path).
    destruct (part_result single part_path) as [e|[segments|]] eqn:Hpart;
      [done| |done].
    assert (∀ time_offset',
      transcribe_parts single get_duration parts
        (all_segments ++ (shift time_offset <$> segments)) time_offset'
      = inr merged →
      ∃ per_part,
        Forall2 (λ part_path segments,
                   part_result single part_path = inr (Some segments))
                (part_path :: parts) per_part
        ∧ seg_text <$> merged
          = (seg_text <$> all_segments) ++ (seg_text <$> mjoin per_part))
      as Hrest.
    { intros time_offset' (per_part & Hparts & Htexts)%IH.
      exists (segments :: per_part). split; [by constructor|].
      rewrite Htexts, fmap_app, shift_texts. cbn [mjoin list_join].
      by rewrite fmap_app, app_assoc. }
    destruct (shift time_offset <$> segments) as [|s shifted] eqn:Hshifted.
    + destruct (get_duration part_path) as [e|d]; [done|]. apply Hrest.
    + apply Hrest.
Qed.

Lemma transcribe_parts_raises single get_duration parts all_segments
    time_offset e :
  transcribe_parts single get_duration parts all_segments time_offset
  = inl e →
  ∃ part_path,
    part_path ∈ parts
    ∧ (part_result single part_path = inl e
       ∨ part_result single part_path = inr (Some [])
         ∧ get_duration part_path = inl e).
Proof.
  revert all_segments time_offset.
  induction parts as [|part_path parts IH]; intros all_segments time_offset;
    [done|].
  cbn [transcribe_parts]. fold (part_result single part_path).
  pose proof (retry_never_none (single part_path) part_path) as Hsome.
  fold (part_result single part_path) in Hsome.
  destruct (part_result single part_path) as [e'|[segments|]] eqn:Hpart;
    [| |done].
  { intros [= ->]. exists part_path. split; [by left|by left]. }
  assert (∀ all_segments' time_offset',
    transcribe_parts single get_duration parts all_segments' time_offset'
    = inl e →
    ∃ part_path0,
      part_path0 ∈ part_path :: parts
      ∧ (part_result single part_path0 = inl e
         ∨ part_result single part_path0 = inr (Some [])
           ∧ get_duration part_path0 = inl e)) as Hrest.
  { intros all_segments' time_offset' (part_path0 & Hin & Hcause)%IH.
    exists part_path0. split; [by right|done]. }
  destruct segments as [|s segments]; cbn [fmap list_fmap].
  - destruct (get_duration part_path) as [e'|d] eqn:Hduration;
      [|apply Hrest].
    intros [= ->]. exists part_path. split; [by left|]. right. by rewrite Hpart.
  - apply Hrest.
Qed.

(** X20. When the parts are all transcribed, the segments returned are
    those of the first part, then those of the second, and so on, with
    their texts as the calls returned them; when the function raises,
    it raises what the transcription of one part raised, or what
    [get_duration] raised on a part without segments. *)
Theorem split_segments_in_order zero single get_duration file_path parts fs :
  let r := _split_and_transcribe zero single get_duration file_path parts fs in
  (∀ all_segments, r.1 = inr all_segments →
     ∃ per_part,
       Forall2 (λ part_path segments,
                  part_result single part_path = inr (Some segments))
               parts per_part
       ∧ seg_text <$> all_segments = seg_text <$> mjoin per_part)
  ∧ (∀ e, r.1 = inl e →
       ∃ part_path,
         part_path ∈ parts
         ∧ (part_result single part_path = inl e
            ∨ part_result single part_path = inr (Some [])
              ∧ get_duration part_path = inl e)).
Proof.
  cbn [_split_and_transcribe fst]. split.
  - intros all_segments Hparts. by apply transcribe_parts_returns in Hparts.
  - intros e. apply transcribe_parts_raises.
Qed.

(** *** [_transcribe_single] and the durations of the parts *)

(** A transcription always gives at least one segment, and the text of
    each segment is stripped. *)
Lemma transcribe_single_segments zero transcription :
  _transcribe_single zero transcription ≠ []
  ∧ Forall (λ seg, strip (seg_text seg) = seg_text seg)
           (_transcribe_single zero transcription).
Proof.
  unfold _transcribe_single.
  destruct (segments transcription) as [[|seg segs]|].
  - split; [done|]. repeat constructor. apply strip_idempotent.
  - split; [done|]. apply Forall_fmap, Forall_true. intros seg'.
    apply strip_idempotent.
  - split; [done|]. repeat constructor. apply strip_idempotent.
Qed.

Lemma retry_single_segments zero api part_path part_segments :
  (_transcribe_with_retry (single_of zero api part_path) part_path).1
  = inr (Some part_segments) →
  part_segments ≠ [].
Proof.
  unfold _transcribe_with_retry.
  change (range 1 (MAX_PART_RETRIES + 1) 1) with [1; 2; 3]%nat.
  cbn [retry_attempts]. unfold single_of.
  repeat match goal with
         | |- context [api part_path ?n] =>
             let H := fresh in destruct (api part_path n) eqn:H
         | |- context [if ?b then _ else _] => destruct b
         end; cbn [fst]; intros [= <-]; apply transcribe_single_segments.
Qed.

Lemma transcribe_parts_duration zero api get_duration get_duration' parts
    all_segments time_offset :
  transcribe_parts (single_of zero api) get_duration parts all_segments
                   time_offset
  = transcribe_parts (single_of zero api) get_duration' parts all_segments
                     time_offset.
Proof.
  revert all_segments time_offset.
  induction parts as [|part_path parts IH]; intros all_segments time_offset;
    [done|].
  cbn [transcribe_parts].
  destruct (_transcribe_with_retry _ _).1 as [e|[part_segments|]] eqn:Hpart;
    [done| |done].
  apply retry_single_segments in Hpart.
  destruct part_segments as [|seg part_segments]; [done|].
  cbn [fmap list_fmap]. apply IH.
Qed.

(** X21. Each segment [_transcribe_single] returns has a stripped text, and
    it always returns at least one; so a part that is transcribed has
    segments, and [_split_and_transcribe] never asks [get_duration] for
    the length of a part: what it returns or raises, and the files it
    leaves, do not depend on what ffprobe would say. *)
Theorem duration_never_probed zero api get_duration get_duration' file_path
    parts fs :
  (∀ transcription,
     _transcribe_single zero transcription ≠ []
     ∧ Forall (λ seg, strip (seg_text seg) = seg_text seg)
              (_transcribe_single zero transcription))
  ∧ _split_and_transcribe zero (single_of zero api) get_duration
                          file_path parts fs
    = _split_and_transcribe zero (single_of zero api) get_duration'
                            file_path parts fs.
Proof.
  split; [intros transcription; apply transcribe_single_segments|].
  unfold _split_and_transcribe. f_equal. apply transcribe_parts_duration.
Qed.

(** *** Part files *)

Lemma chars_app a b : chars (a +:+ b) = chars a ++ chars b.
Proof.
  unfold chars. induction a as [|c a IH]; [done|].
  change (String c a +:+ b) with (String c (a +:+ b)).
  cbn [list_ascii_of_string]. by rewrite IH.
Qed.

Lemma string_of_uint_digits d :
  Forall (λ c, c ∈ chars "0123456789") (chars (NilEmpty.string_of_uint d)).
Proof.
  induction d; cbn [NilEmpty.string_of_uint]; unfold chars in *;
    cbn [list_ascii_of_string]; [apply Forall_nil_2|..];
    (apply Forall_cons_2; [rewrite !elem_of_cons; tauto|done]).
Qed.

(** The decimal digits of a natural number end with a digit. *)
Lemma str_nat_last n :
  ∃ c, last (chars (str (Z.of_nat n))) = Some c ∧ c ∈ chars "0123456789".
Proof.
  assert (∀ d, ∃ c, last (chars (NilZero.string_of_uint d)) = Some c
                    ∧ c ∈ chars "0123456789") as Huint.
  { intros d. pose proof (string_of_uint_digits d) as Hdigits.
    assert (∀ l : list ascii, l ≠ [] →
              Forall (λ c, c ∈ chars "0123456789") l →
              ∃ c, last l = Some c ∧ c ∈ chars "0123456789") as Hlast.
    { intros l Hne Hall. destruct (last l) as [c|] eqn:Hc.
      - exists c. split; [done|]. apply last_Some in Hc as [l' ->].
        by apply Forall_app in Hall as [_ [Hc _]%Forall_cons].
      - by apply last_None in Hc. }
    destruct d; [exists "0"%char; split; [done|by left]|..];
      apply Hlast; done. }
  unfold str. destruct (Z.of_nat n) as [|p|p] eqn:Hn; [apply Huint..|lia].
Qed.

Lemma format_03d_last n :
  ∃ c, last (chars (format_03d n)) = Some c ∧ c ∈ chars "0123456789".
Proof.
  destruct (str_nat_last n) as (c & Hlast & Hc). exists c. split; [|done].
  unfold format_03d. by rewrite chars_app, last_app, Hlast.
Qed.

(** X22. A part file of [split_audio] does not end in [_part], since its
    stem ends with the digits of the part number: the test of
    [do_transcribe] on the stem lets it through, and the part of a
    split that was not cleaned up is taken up as a file to transcribe
    unless its transcription exists. *)
Theorem part_files_not_skipped stem n :
  endswith (part_stem stem n) "_part" = false
  ∧ ∀ flac_files transcribed,
      part_stem stem n ∈ flac_files →
      part_stem stem n ∉ transcribed →
      part_stem stem n ∈ to_transcribe flac_files transcribed.
Proof.
  assert (endswith (part_stem stem n) "_part" = false) as Hends.
  { unfold endswith. apply bool_decide_eq_false_2. intros [before Hsuffix].
    destruct (format_03d_last n) as (c & Hlast & Hc).
    assert (last (chars (part_stem stem n)) = Some c) as Hdigit.
    { unfold part_stem. by rewrite !chars_app, !last_app, Hlast. }
    rewrite Hsuffix, last_app in Hdigit. cbn in Hdigit.
    injection Hdigit as <-. revert Hc. unfold chars.
    cbn [list_ascii_of_string]. rewrite !elem_of_cons, elem_of_nil.
    intros Hc. repeat destruct Hc as [Hc|Hc]; done. }
  split; [done|]. intros flac_files transcribed Hin Hnew.
  unfold to_transcribe. by apply list_elem_of_filter.
Qed.

(** *** [convert_mp3.py] *)

(** One conversion writes or unlinks the MP3 path of its file and
    touches nothing else; it returns True with an MP3 file in place
    and False with none. *)
Lemma convert_flac_to_mp3_spec fs flac_path bitrate :
  let r := convert_flac_to_mp3 fs flac_path bitrate in
  (∀ p, p ≠ mp3_path_of flac_path → r.2 !! p = fs !! p)
  ∧ (if r.1 then is_Some (r.2 !! mp3_path_of flac_path)
     else r.2 !! mp3_path_of flac_path = None).
Proof.
  unfold convert_flac_to_mp3.
  destruct (fs !! mp3_path_of flac_path) as [[|b content]|] eqn:Hmp3;
    [| |]; try destruct (lame _ _) as [mp3|]; cbn [fst snd];
    (split; [intros p Hp|]);
    rewrite ?lookup_insert_ne, ?lookup_delete_ne by done;
    rewrite ?lookup_insert_eq, ?lookup_delete_eq, ?Hmp3; done.
Qed.

Lemma convert_step_frame delete_flac bitrate n fs flac_file n' fs' :
  convert_step delete_flac bitrate (n, fs) flac_file = Some (n', fs') →
  (n ≤ n' ≤ n + 1)%nat
  ∧ ∀ p, p ≠ mp3_path_of flac_file → p ≠ flac_file ∨ delete_flac = false →
         fs' !! p = fs !! p.
Proof.
  unfold convert_step. cbn [fst snd].
  destruct (convert_flac_to_mp3_spec fs flac_file bitrate) as [Hframe _].
  destruct (convert_flac_to_mp3 fs flac_file bitrate) as [success fsc].
  cbn [fst snd] in Hframe.
  destruct success; [destruct delete_flac;
                     [destruct (fsc !! flac_file); [|done]|]|];
    intros [= <- <-]; (split; [lia|]); intros p Hmp3 Hflac;
    rewrite ?lookup_delete_ne by (by destruct Hflac); by apply Hframe.
Qed.

Lemma convert_step_self delete_flac bitrate n fs flac_file n' fs' :
  convert_step delete_flac bitrate (n, fs) flac_file = Some (n', fs') →
  flac_file ≠ mp3_path_of flac_file →
  (fs' !! flac_file = None → is_Some (fs !! flac_file) →
     delete_flac = true ∧ is_Some (fs' !! mp3_path_of flac_file))
  ∧ (delete_flac = true → is_Some (fs' !! mp3_path_of flac_file) →
     fs' !! flac_file = None)
  ∧ (fs' !! flac_file ≠ None → fs' !! flac_file = fs !! flac_file).
Proof.
  unfold convert_step. cbn [fst snd]. intros Hstep Hne.
  destruct (convert_flac_to_mp3_spec fs flac_file bitrate) as [Hframe Hmp3].
  destruct (convert_flac_to_mp3 fs flac_file bitrate) as [success fsc].
  cbn [fst snd] in Hframe, Hmp3. specialize (Hframe flac_file Hne).
  destruct success.
  - destruct delete_flac.
    + destruct (fsc !! flac_file); [|done]. injection Hstep as <- <-.
      rewrite lookup_delete_eq, lookup_delete_ne by done. by split_and!.
    + injection Hstep as <- <-. rewrite Hframe. split_and!; [|done|done].
      intros -> [? [=]].
  - injection Hstep as <- <-. rewrite Hframe, Hmp3.
    split_and!; [|by intros _ [? [=]]|done]. intros -> [? [=]].
Qed.

Lemma convert_loop_frame delete_flac bitrate flac_files n fs n' fs' :
  for_each (convert_step delete_flac bitrate) flac_files (n, fs)
  = Some (n', fs') →
  (n ≤ n' ≤ n + length flac_files)%nat
  ∧ ∀ p, p ∉ mp3_path_of <$> flac_files →
         p ∉ flac_files ∨ delete_flac = false →
         fs' !! p = fs !! p.
Proof.
  revert n fs. induction flac_files as [|f flac_files IH]; intros n fs.
  - cbn. intros [= <- <-]. split; [lia|done].
  - cbn [for_each].
    destruct (convert_step delete_flac bitrate (n, fs) f) as [[n1 fs1]|]
      eqn:Hstep; [|done].
    cbn [mbind option_bind]. intros [Hcount Hframe]%IH.
    apply convert_step_frame in Hstep as [Hcount1 Hframe1].
    split; [cbn [length]; lia|]. intros p Hmp3 Hflac.
    rewrite fmap_cons, not_elem_of_cons in Hmp3. destruct Hmp3 as [Hne Hmp3].
    rewrite Hframe, Hframe1; [done|done| |done|].
    + destruct Hflac as [Hflac|]; [|by right].
      left. by apply not_elem_of_cons in Hflac as [? _].
    + destruct Hflac as [Hflac|]; [|by right].
      left. by apply not_elem_of_cons in Hflac as [_ ?].
Qed.

Lemma convert_loop_self delete_flac bitrate flac_files n fs n' fs' :
  for_each (convert_step delete_flac bitrate) flac_files (n, fs)
  = Some (n', fs') →
  NoDup flac_files →
  (∀ f g, f ∈ flac_files → g ∈ flac_files →
          mp3_path_of f = mp3_path_of g → f = g) →
  (∀ f, f ∈ flac_files → mp3_path_of f ∉ flac_files) →
  ∀ f, f ∈ flac_files → is_Some (fs !! f) →
    (fs' !! f = None →
       delete_flac = true ∧ is_Some (fs' !! mp3_path_of f))
    ∧ (delete_flac = true → is_Some (fs' !! mp3_path_of f) →
       fs' !! f = None)
    ∧ (fs' !! f ≠ None → fs' !! f = fs !! f).
Proof.
  revert n fs. induction flac_files as [|g flac_files IH]; intros n fs;
    [by intros _ _ _ _ f []%elem_of_nil|].
  cbn [for_each].
  destruct (convert_step delete_flac bitrate (n, fs) g) as [[n1 fs1]|]
    eqn:Hstep; [|done].
  cbn [mbind option_bind]. intros Hloop [Hfresh Hnodup]%NoDup_cons Hinj Hapart.
  assert (∀ f, f ∈ flac_files → mp3_path_of f ≠ mp3_path_of g) as Hdistinct.
  { intros f Hf Heq. apply Hfresh.
    by rewrite <- (Hinj f g) by (done || by left || by right). }
  intros f [->|Hf]%elem_of_cons Hexists.
  - assert (g ≠ mp3_path_of g) as Hne.
    { intros Heq. apply (Hapart g); [by left|]. rewrite <- Heq. by left. }
    destruct (convert_loop_frame _ _ _ _ _ _ _ Hloop) as [_ Hframe].
    rewrite (Hframe g), (Hframe (mp3_path_of g)).
    + destruct (convert_step_self _ _ _ _ _ _ _ Hstep Hne)
        as (Hgone & Hthere & Hsame).
      split_and!; [|done|done]. intros Hnone. by apply Hgone.
    + intros (f & Heq & Hf)%list_elem_of_fmap. by apply (Hdistinct f).
    + left. intros Hin. apply (Hapart g); [by left|by right].
    + intros (f & Heq & Hf)%list_elem_of_fmap.
      apply (Hapart f); [by right|]. rewrite <- Heq. by left.
    + by left.
  - destruct (convert_step_frame _ _ _ _ _ _ _ Hstep) as [_ Hframe1].
    assert (fs1 !! f = fs !! f) as Hsame1.
    { apply Hframe1.
      - intros ->. apply (Hapart g); [by left|by right].
      - left. intros ->. done. }
    rewrite <- Hsame1. apply (IH n1 fs1); try done.
    + intros f1 f2 Hf1 Hf2. apply Hinj; by right.
    + intros f1 Hf1 Hin. apply (Hapart f1); by right.
    + by rewrite Hsame1.
Qed.

Lemma convert_mp3_main_completes args flac_files fs e fs' :
  convert_mp3_main args flac_files fs = (e, Some fs') →
  flac_files = [] ∧ e = NoFlac ∧ fs' = fs
  ∨ ∃ bitrate ok_count,
      flac_files ≠ []
      ∧ e = Completed ok_count (length flac_files)
      ∧ for_each (convert_step (bool_decide ("--delete" ∈ args)) bitrate)
                 flac_files (0%nat, fs)
        = Some (ok_count, fs').
Proof.
  unfold convert_mp3_main.
  destruct (match index "--bitrate" args with
            | Some i => _
            | None => _
            end) as [bitrate|]; [|done].
  destruct flac_files as [|f flac_files]; [intros [= <- <-]; by left|].
  destruct (for_each _ _ _) as [[ok_count fs1]|] eqn:Hloop; [|done].
  intros [= <- <-]. right. by exists bitrate, ok_count.
Qed.

(** X23. When the FLAC files are distinct, have distinct MP3 paths and none
    of these is one of the FLAC files, a run that completes has unlinked
    a FLAC file only under [--delete] and with the MP3 file in place;
    under [--delete] a FLAC file whose MP3 file is in place is gone; and
    a FLAC file that is still there is unchanged. *)
Theorem flac_deleted_only_when_converted args flac_files fs e fs' :
  convert_mp3_main args flac_files fs = (e, Some fs') →
  NoDup flac_files →
  (∀ f g, f ∈ flac_files → g ∈ flac_files →
          mp3_path_of f = mp3_path_of g → f = g) →
  (∀ f, f ∈ flac_files → mp3_path_of f ∉ flac_files) →
  ∀ f, f ∈ flac_files → is_Some (fs !! f) →
    (fs' !! f = None →
       "--delete" ∈ args ∧ is_Some (fs' !! mp3_path_of f))
    ∧ ("--delete" ∈ args → is_Some (fs' !! mp3_path_of f) →
       fs' !! f = None)
    ∧ (fs' !! f ≠ None → fs' !! f = fs !! f).
Proof.
  intros Hmain Hnodup Hinj Hapart f Hf Hexists.
  apply convert_mp3_main_completes in Hmain
    as [(-> & _)|(bitrate & ok_count & _ & _ & Hloop)];
    [by apply elem_of_nil in Hf|].
  destruct (convert_loop_self _ _ _ _ _ _ _ Hloop Hnodup Hinj Hapart f Hf
              Hexists) as (Hgone & Hthere & Hsame).
  split_and!; [|intros Hdelete; apply Hthere; by apply bool_decide_eq_true_2
               |done].
  intros [Hdelete Hmp3]%Hgone. split; [|done].
  by apply bool_decide_eq_true_1 in Hdelete.
Qed.

(** X24. A run that completes has changed no file but the FLAC files it was
    given and their MP3 files, and without [--delete] no file but these
    MP3 files; the count it reports is at most the number of FLAC
    files. *)
Theorem conversion_touches_only_its_files args flac_files fs e fs' :
  convert_mp3_main args flac_files fs = (e, Some fs') →
  (∀ p, p ∉ flac_files → p ∉ mp3_path_of <$> flac_files →
        fs' !! p = fs !! p)
  ∧ ("--delete" ∉ args →
     ∀ p, p ∉ mp3_path_of <$> flac_files → fs' !! p = fs !! p)
  ∧ match e with
    | NoFlac => flac_files = [] ∧ fs' = fs
    | Completed ok_count total =>
        flac_files ≠ [] ∧ total = length flac_files ∧ (ok_count ≤ total)%nat
    | Crashed => False
    end.
Proof.
  intros Hmain. apply convert_mp3_main_completes in Hmain
    as [(-> & -> & ->)|(bitrate & ok_count & Hne & -> & Hloop)]; [done|].
  destruct (convert_loop_frame _ _ _ _ _ _ _ Hloop) as [Hcount Hframe].
  split_and!; [|intros Hkeep p Hp; apply Hframe; [done|right]
               |done|done|lia].
  - intros p Hflac Hmp3. apply Hframe; [done|by left].
  - by apply bool_decide_eq_false_2.
Qed.

End Pipeline.

(** ** The properties on concrete inputs *)

Import Fixture.

(** The fixture cipher is a block primitive that decryption inverts. *)
Lemma xor_block_length key block :
  valid_key key = true → length block = block_size →
  length (xor_block key block) = block_size.
Proof.
  unfold valid_key, xor_block, block_size. intros Hkey Hblock.
  rewrite xor_bytes_length, Hblock.
  destruct (length key =? 16)%nat eqn:H16; [apply Nat.eqb_eq in H16; lia|].
  destruct (length key =? 24)%nat eqn:H24; [apply Nat.eqb_eq in H24; lia|].
  destruct (length key =? 32)%nat eqn:H32; [apply Nat.eqb_eq in H32; lia|done].
Qed.

Lemma xor_block_inverse key block :
  valid_key key = true → length block = block_size →
  xor_block key (xor_block key block) = block.
Proof.
  unfold valid_key, xor_block, block_size. intros Hkey Hblock.
  apply xor_bytes_cancel. rewrite Hblock.
  destruct (length key =? 16)%nat eqn:H16; [apply Nat.eqb_eq in H16; lia|].
  destruct (length key =? 24)%nat eqn:H24; [apply Nat.eqb_eq in H24; lia|].
  destruct (length key =? 32)%nat eqn:H32; [apply Nat.eqb_eq in H32; lia|done].
Qed.

(** The timeline [(4, 2); (3, 0)] expands to [0; 4; 8; 12]. *)
Lemma timeline_expansion_witness :
  Forall2 (parses_to dec_int) [S_elem "4" "2"; S_elem_d "3"] [(4, 2); (3, 0)]
  ∧ Forall valid_entry [(4, 2); (3, 0)]
  ∧ segment_timeline dec_int [S_elem "4" "2"; S_elem_d "3"] = Ok [0; 4; 8; 12].
Proof.
  assert (Forall2 (parses_to dec_int)
            [S_elem "4" "2"; S_elem_d "3"] [(4, 2); (3, 0)]) as Hparse.
  { repeat (constructor; [split; vm_compute; reflexivity|]). constructor. }
  assert (Forall valid_entry [(4, 2); (3, 0)]) as Hvalid.
  { repeat (constructor; [unfold valid_entry; simpl; lia|]). constructor. }
  split_and!; [exact Hparse|exact Hvalid|].
  destruct (timeline_expansion dec_int _ _ Hparse Hvalid)
    as (times & Htimes & -> & _).
  exact Htimes.
Defined.

(** C9, counterexample. An entry of duration zero and an entry with a
    negative repeat are expanded, to three copies of the timestamp 0 and
    to nothing, where the claim wants an error. *)
Lemma invalid_entries_expanded :
  parses_to dec_int (S_elem "0" "2") (0, 2)
  ∧ parses_to dec_int (S_elem "4" "-1") (4, -1)
  ∧ segment_timeline dec_int [S_elem "0" "2"; S_elem "4" "-1"] = Ok [0; 0; 0].
Proof. split_and!; [split..|]; vm_compute; reflexivity. Qed.

Lemma timeline_not_validated_witness :
  Forall2 (parses_to dec_int)
          [S_elem "7" "-2"; S_elem "0" "1"; S_elem_d "-3"]
          [(7, -2); (0, 1); (-3, 0)]
  ∧ segment_timeline dec_int [S_elem "7" "-2"; S_elem "0" "1"; S_elem_d "-3"]
    = Ok [0; 0; 0].
Proof.
  assert (Forall2 (parses_to dec_int)
            [S_elem "7" "-2"; S_elem "0" "1"; S_elem_d "-3"]
            [(7, -2); (0, 1); (-3, 0)]) as Hparse.
  { repeat (constructor; [split; vm_compute; reflexivity|]). constructor. }
  split; [exact Hparse|].
  exact (proj1 (timeline_not_validated dec_int _ _ Hparse)).
Defined.

(** C7, counterexample. An IV attribute of two bytes gives an IV of two
    bytes, and a set without ContentProtection gives the empty IV, where
    the claim wants 16 bytes and 16 zero bytes. *)
Lemma iv_not_sixteen_bytes :
  iv <$> _parse_adaptation_set dec_int plain_text short_iv "https://h/"
  = Ok [x00; x11]
  ∧ iv <$> _parse_adaptation_set dec_int plain_text unprotected "https://h/"
    = Ok [].
Proof. split; vm_compute; reflexivity. Qed.

Lemma iv_resolution_witness :
  _parse_adaptation_set dec_int plain_text with_iv "https://h/"
  = Ok (Track "https://h/key"
              [x00; x01; x02; x03; x04; x05; x06; x07;
               x08; x09; x0a; x0b; x0c; x0d; x0e; x0f]
              "https://h/init-a1.mp4" "https://h/seg-a1-$Time$.m4s"
              [0; 4; 8] None)
  ∧ fromhex (replace "0x000102030405060708090a0b0c0d0e0f" "0x" "")
    = Ok [x00; x01; x02; x03; x04; x05; x06; x07;
          x08; x09; x0a; x0b; x0c; x0d; x0e; x0f].
Proof.
  assert (_parse_adaptation_set dec_int plain_text with_iv "https://h/"
          = Ok (Track "https://h/key"
                      [x00; x01; x02; x03; x04; x05; x06; x07;
                       x08; x09; x0a; x0b; x0c; x0d; x0e; x0f]
                      "https://h/init-a1.mp4" "https://h/seg-a1-$Time$.m4s"
                      [0; 4; 8] None)) as Hparse
    by (vm_compute; reflexivity).
  split; [exact Hparse|].
  destruct (iv_resolution dec_int plain_text _ _ _ Hparse) as (_ & _ & Hiv & _).
  apply (Hiv (elem (sea "CryptoPeriod")
                   (("IV", "0x000102030405060708090a0b0c0d0e0f")
                    :: crypto_period0) None []));
    vm_compute; reflexivity.
Defined.

(** A block that decrypts to sixteen zero bytes is returned whole; a
    block that decrypts to sixteen bytes of padding loses all of them. *)
Lemma padding_check_witness :
  cbc_decrypt xor_block key0 iv0 (replicate 16 x2a) = Ok (replicate 16 x00)
  ∧ cbc_decrypt xor_block key0 iv0 (replicate 16 x3a) = Ok (replicate 16 x10)
  ∧ _decrypt xor_block (replicate 16 x2a) key0 iv0 = Ok (replicate 16 x00)
  ∧ ∃ body, replicate 16 x10 = body ++ replicate 16 x10
            ∧ _decrypt xor_block (replicate 16 x3a) key0 iv0 = Ok body.
Proof.
  assert (cbc_decrypt xor_block key0 iv0 (replicate 16 x2a)
          = Ok (replicate 16 x00)) as Hkeep by (vm_compute; reflexivity).
  assert (cbc_decrypt xor_block key0 iv0 (replicate 16 x3a)
          = Ok (replicate 16 x10)) as Hstrip by (vm_compute; reflexivity).
  split_and!; [exact Hkeep|exact Hstrip| |].
  - destruct (padding_check xor_block xor_block_length _ _ _ _ Hkeep)
      as [_ Hlast].
    destruct (Hlast x00 eq_refl) as [Hkept _]. apply Hkept.
    left. vm_compute. reflexivity.
  - destruct (padding_check xor_block xor_block_length _ _ _ _ Hstrip)
      as [_ Hlast].
    destruct (Hlast x10 eq_refl) as [_ Hstripped]. apply Hstripped.
    + vm_compute. split; discriminate.
    + intros i b' _ [-> _]%lookup_replicate. reflexivity.
Defined.

(** The two-byte plaintext [hi] comes back from its encryption. *)
Lemma decrypt_encrypt_witness :
  length key0 = 16%nat ∧ length iv0 = 16%nat
  ∧ _decrypt xor_block (encrypt xor_block [x68; x69] key0 iv0) key0 iv0
    = Ok [x68; x69].
Proof.
  split_and!; [reflexivity..|].
  apply (decrypt_encrypt xor_block xor_block
           xor_block_length xor_block_inverse); reflexivity.
Defined.












(** A session whose key and init segment have the same URL: the first
    response for it is the key, the second the init segment, here of no
    block at all; the only segment is never delivered and the file is
    empty. *)
Lemma written_file_requirements_witness :
  ∃ o, _download_dash_audio dec_int plain_text xor_block copy_ffmpeg
                            (alike net_twice) (in_order 1)
                            (manifest [key_at_init])
       = Some o
       ∧ fmp4 o = Some []
       ∧ ∃ period audio_track key content init_data,
           find (manifest [key_at_init]) (dash "Period") = Some period
           ∧ select_audio_track dec_int plain_text period
               (findtext (manifest [key_at_init]) (dash "BaseURL") "")
             = Ok (Some audio_track)
           ∧ alike net_twice Session (key_url audio_track) 0%nat
             = Response 200 key
           ∧ valid_key key = true
           ∧ length (iv audio_track) = 16%nat
           ∧ alike net_twice Session (init_url audio_track)
                     (init_request audio_track)
             = Response 200 content
           ∧ (init_request audio_track
              = if decide (init_url audio_track = key_url audio_track)
                then 1 else 0)%nat
           ∧ (length content mod 16 = 0)%nat
           ∧ _decrypt xor_block content key (iv audio_track) = Ok init_data
           ∧ init_data `prefix_of` [].
Proof.
  eexists. split; [vm_compute; reflexivity|]. split; [reflexivity|].
  eapply (written_file_requirements dec_int plain_text xor_block copy_ffmpeg
            (alike net_twice) (in_order 1) (manifest [key_at_init]));
    vm_compute; reflexivity.
Defined.

(** A session whose ffmpeg exits with code 1 returns False, and the four
    bytes ffmpeg wrote are still at the destination. *)
Lemma converted_iff_true_witness :
  ∃ o, _download_dash_audio dec_int plain_text xor_block broken_ffmpeg
                            (alike net_flaky) reversed3 (manifest [unlabelled])
       = Some o
       ∧ returned o = Ok false
       ∧ flac o = Some (replicate 4 x00)
       ∧ ∀ f, fmp4 o = Some f → flac o = (broken_ffmpeg f).2.
Proof.
  eexists. split; [vm_compute; reflexivity|].
  split; [reflexivity|]. split; [reflexivity|].
  eapply (proj1 (proj2 (converted_iff_true dec_int plain_text xor_block
                          broken_ffmpeg (alike net_flaky) reversed3
                          (manifest [unlabelled]) _ _))).
  Unshelve. vm_compute. reflexivity.
Defined.

(** An audio set without children, between a set that parses and a set
    labelled OriginalAudio, makes the selection raise. *)
Lemma malformed_audio_set_aborts_witness :
  select_audio_track dec_int plain_text
    (period_of [video; unlabelled;
                elem (dash "AdaptationSet") [("contentType", "audio")] None [];
                original])
    "https://h/"
  = Raise AttributeError.
Proof.
  refine (proj1 (malformed_audio_set_aborts dec_int plain_text xor_block
                   copy_ffmpeg
                   (period_of
                      [video; unlabelled;
                       elem (dash "AdaptationSet") [("contentType", "audio")]
                            None [];
                       original])
                   "https://h/" [video; unlabelled]
                   (elem (dash "AdaptationSet") [("contentType", "audio")]
                         None [])
                   [original] AttributeError eq_refl _ eq_refl eq_refl)).
  intros a Ha.
  assert (a = unlabelled) as ->; [|by eexists].
  revert Ha. rewrite filter_cons_False by (vm_compute; discriminate).
  rewrite filter_cons_True by reflexivity. rewrite filter_nil.
  by intros ->%list_elem_of_singleton.
Defined.


(** A block that decrypts to 16 bytes of padding loses all 16. *)
Lemma decrypt_drops_at_most_a_block_witness :
  _decrypt xor_block (replicate 16 x3a) key0 iv0 = Ok []
  ∧ ∃ plain,
      cbc_decrypt xor_block key0 iv0 (replicate 16 x3a) = Ok plain
      ∧ [] `prefix_of` plain
      ∧ length plain = 16%nat
      ∧ (16 - 16 ≤ 0 ≤ 16)%nat.
Proof.
  assert (_decrypt xor_block (replicate 16 x3a) key0 iv0 = Ok []) as Hdecrypt
    by (vm_compute; reflexivity).
  split; [exact Hdecrypt|].
  exact (decrypt_drops_at_most_a_block xor_block _ _ _ _
           xor_block_length Hdecrypt).
Defined.

(** A name with reserved characters, a trailing dot and a trailing
    space. *)
Lemma sanitize_filename_idempotent_witness :
  _sanitize_filename "a/b: c. " = "a_b_ c"
  ∧ _sanitize_filename (_sanitize_filename "a/b: c. ")
    = _sanitize_filename "a/b: c. ".
Proof.
  split; [vm_compute; reflexivity|].
  apply sanitize_filename_idempotent. cbn. lia.
Defined.

(** Of a video and a manifest, captured in that order, the manifest is
    what the search finds. *)
Lemma manifest_is_first_match_witness :
  find_manifest latin1 net_pages []
    [("https://h/video.mp4", "video/mp4");
     ("https://h/manifest", "application/dash+xml")]
  = Some "<?xml?><MPD></MPD>"
  ∧ ∃ before cap_url cap_ct after content,
      [("https://h/video.mp4", "video/mp4");
       ("https://h/manifest", "application/dash+xml")]
      = before ++ (cap_url, cap_ct) :: after
      ∧ find_manifest latin1 net_pages [] before = None
      ∧ net_pages cap_url (length (filter (.= cap_url) before.*1))
        = Response 200 content
      ∧ latin1 content = Ok "<?xml?><MPD></MPD>"
      ∧ contains "<MPD" (slice_to 500 "<?xml?><MPD></MPD>") = true.
Proof.
  assert (find_manifest latin1 net_pages []
            [("https://h/video.mp4", "video/mp4");
             ("https://h/manifest", "application/dash+xml")]
          = Some "<?xml?><MPD></MPD>") as Hfound by (vm_compute; reflexivity).
  split; [exact Hfound|].
  exact (manifest_is_first_match latin1 net_pages _ _ Hfound).
Defined.

Lemma two_flacs_apart :
  NoDup ["a.flac"; "b.flac"]
  ∧ (∀ f g, f ∈ ["a.flac"; "b.flac"] → g ∈ ["a.flac"; "b.flac"] →
            in_mp3_dir f = in_mp3_dir g → f = g)
  ∧ (∀ f, f ∈ ["a.flac"; "b.flac"] → in_mp3_dir f ∉ ["a.flac"; "b.flac"]).
Proof.
  split_and!.
  - apply (bool_decide_unpack _). vm_compute. exact I.
  - intros f g Hf Hg. unfold in_mp3_dir. by intros [=].
  - intros f Hf Hin. rewrite !elem_of_cons in Hin.
    destruct Hin as [[=]|[[=]|[]%elem_of_nil]].
Qed.

(** Under [--delete], of a file that converts and a file that does not
    the first is unlinked, with its MP3 file in place. *)
Lemma flac_deleted_only_when_converted_witness :
  convert_mp3_main dec_int in_mp3_dir copy_lame ["--delete"]
                   ["a.flac"; "b.flac"] two_flacs
  = (Completed 1 2,
     Some (list_to_map [("mp3/a.flac", [x01; x02]); ("b.flac", [x00; x02])]))
  ∧ (list_to_map [("mp3/a.flac", [x01; x02]); ("b.flac", [x00; x02])]
       : gmap string bytes) !! "a.flac" = None
  ∧ "--delete" ∈ ["--delete"]
  ∧ is_Some ((list_to_map [("mp3/a.flac", [x01; x02]);
                           ("b.flac", [x00; x02])] : gmap string bytes)
               !! in_mp3_dir "a.flac").
Proof.
  assert (convert_mp3_main dec_int in_mp3_dir copy_lame ["--delete"]
            ["a.flac"; "b.flac"] two_flacs
          = (Completed 1 2,
             Some (list_to_map [("mp3/a.flac", [x01; x02]);
                                ("b.flac", [x00; x02])]))) as Hmain
    by (vm_compute; reflexivity).
  assert ((list_to_map [("mp3/a.flac", [x01; x02]); ("b.flac", [x00; x02])]
             : gmap string bytes) !! "a.flac" = None) as Hgone
    by (vm_compute; reflexivity).
  destruct two_flacs_apart as (Hnodup & Hinj & Hapart).
  split_and!; [exact Hmain|exact Hgone|..];
    apply (proj1 (flac_deleted_only_when_converted dec_int in_mp3_dir copy_lame
                    _ _ _ _ _ Hmain Hnodup Hinj Hapart "a.flac"
                    (list_elem_of_here _ _) (mk_is_Some _ _ eq_refl)) Hgone).
Defined.

(** Without [--delete] both FLAC files are what they were. *)
Lemma conversion_touches_only_its_files_witness :
  convert_mp3_main dec_int in_mp3_dir copy_lame ["--bitrate"; "128"]
                   ["a.flac"; "b.flac"] two_flacs
  = (Completed 1 2,
     Some (list_to_map [("mp3/a.flac", [x01; x02]); ("a.flac", [x01; x02]);
                        ("b.flac", [x00; x02])]))
  ∧ ∀ p, p ∉ ["mp3/a.flac"; "mp3/b.flac"] →
      (list_to_map [("mp3/a.flac", [x01; x02]); ("a.flac", [x01; x02]);
                    ("b.flac", [x00; x02])] : gmap string bytes) !! p
      = two_flacs !! p.
Proof.
  assert (convert_mp3_main dec_int in_mp3_dir copy_lame ["--bitrate"; "128"]
            ["a.flac"; "b.flac"] two_flacs
          = (Completed 1 2,
             Some (list_to_map [("mp3/a.flac", [x01; x02]);
                                ("a.flac", [x01; x02]);
                                ("b.flac", [x00; x02])]))) as Hmain
    by (vm_compute; reflexivity).
  split; [exact Hmain|].
  destruct (conversion_touches_only_its_files dec_int in_mp3_dir copy_lame
              _ _ _ _ _ Hmain) as (_ & Hkeep & _).
  apply Hkeep. rewrite !elem_of_cons. by intros [[=]|[[=]|[]%elem_of_nil]].
Defined.

(** The track selected among a video set and two audio sets is what
    the set labelled OriginalAudio is parsed to. *)
Lemma selected_is_audio_set_witness :
  select_audio_track dec_int plain_text
    (period_of [video; unlabelled; original]) "https://h/"
  = Ok (Some (track_of [0; 4; 8] (Some (Some "OriginalAudio"))))
  ∧ ∃ adapt tr,
      adapt ∈ audio_sets (period_of [video; unlabelled; original])
      ∧ _parse_adaptation_set dec_int plain_text adapt "https://h/" = Ok tr
      ∧ track_of [0; 4; 8] (Some (Some "OriginalAudio"))
        = set_label (label_of adapt) tr
      ∧ label (track_of [0; 4; 8] (Some (Some "OriginalAudio")))
        = Some (label_of adapt).
Proof.
  assert (select_audio_track dec_int plain_text
            (period_of [video; unlabelled; original]) "https://h/"
          = Ok (Some (track_of [0; 4; 8] (Some (Some "OriginalAudio")))))
    as Hselect by (vm_compute; reflexivity).
  split; [exact Hselect|].
  exact (proj2 (selected_is_audio_set dec_int plain_text _ _ _ Hselect)).
Defined.

(** The session over a manifest whose only audio set has no
    ContentProtection asks for the key at the empty URL, which raises,
    and returns False. *)
Lemma unprotected_never_downloads_witness :
  _download_dash_audio dec_int plain_text xor_block copy_ffmpeg
                       (alike net_no_url) (in_order 3)
                       (manifest [video; unprotected])
  = Some (Outcome (Ok false)
                  [MsgTrack (Some "audio") 3; MsgFetchKey; MsgException]
                  None None)
  ∧ fmp4 (Outcome (Ok false)
                  [MsgTrack (Some "audio") 3; MsgFetchKey; MsgException]
                  None None) = None.
Proof.
  assert (_download_dash_audio dec_int plain_text xor_block copy_ffmpeg
            (alike net_no_url) (in_order 3) (manifest [video; unprotected])
          = Some (Outcome (Ok false)
                          [MsgTrack (Some "audio") 3; MsgFetchKey;
                           MsgException]
                          None None)) as Hsession by (vm_compute; reflexivity).
  split; [exact Hsession|].
  refine (proj1 (unprotected_never_downloads dec_int plain_text xor_block
                   copy_ffmpeg (alike net_no_url) (in_order 3)
                   (manifest [video; unprotected])
                   (period_of [video; unprotected]) _ eq_refl _ Hsession)).
  intros adapt Hin.
  assert (adapt = unprotected) as ->; [|reflexivity].
  revert Hin. unfold audio_sets.
  change (findall (period_of [video; unprotected]) (dash "AdaptationSet"))
    with [video; unprotected].
  rewrite filter_cons_False by (vm_compute; discriminate).
  rewrite filter_cons_True by reflexivity. rewrite filter_nil.
  by intros ->%list_elem_of_singleton.
Defined.


(** ** The Python fragments on small inputs *)

Example replace_does_not_overlap : replace "aaa" "aa" "b" = "ba".
Proof. reflexivity. Qed.

Example replace_time :
  replace "https://h/seg-a1-$Time$.m4s" "$Time$" (str 8) = "https://h/seg-a1-8.m4s".
Proof. reflexivity. Qed.

Example str_negative : str (-40) = "-40".
Proof. reflexivity. Qed.

Example fromhex_skips_whitespace :
  fromhex (String "0" (String "0" (String " " (String "f" (String "F"
          (String (ascii_of_N 10) EmptyString))))))
  = Ok [x00; xff].
Proof. reflexivity. Qed.

Example fromhex_odd : fromhex "0 0" = Raise ValueError.
Proof. reflexivity. Qed.

Example fromhex_prefix_left : fromhex "0X00" = Raise ValueError.
Proof. reflexivity. Qed.

Example range_batches : range 0 65 30 = [0; 30; 60]%nat.
Proof. reflexivity. Qed.

Example slice_clamps : slice 60 90 (seq 0 65) = [60; 61; 62; 63; 64]%nat.
Proof. reflexivity. Qed.

Example slice_last_clamps : slice_last 5 [x01; x02] = [x01; x02].
Proof. reflexivity. Qed.

Example slice_but_last_clamps : slice_but_last 5 [x01; x02] = [].
Proof. reflexivity. Qed.

Example gather_reorders :
  gather [2; 0; 1]%nat ["a"; "b"; "c"] = Some ["a"; "b"; "c"].
Proof. reflexivity. Qed.

Example gather_waits_for_all : gather [2; 0]%nat ["a"; "b"; "c"] = None.
Proof. reflexivity. Qed.

Example blocks_of_33 :
  blocks (replicate 33 x01) = [replicate 16 x01; replicate 16 x01; [x01]].
Proof. reflexivity. Qed.

Example unpad_strips : unpad ([x68; x69] ++ replicate 14 x0e) = [x68; x69].
Proof. reflexivity. Qed.

Example unpad_keeps_mismatch : unpad [x01; x03; x02] = [x01; x03; x02].
Proof. reflexivity. Qed.

Example unpad_keeps_large : unpad (replicate 16 x11) = replicate 16 x11.
Proof. reflexivity. Qed.

Example decrypt_rejects_partial_block :
  _decrypt xor_block [x00; x01; x02] key0 iv0 = Raise ValueError.
Proof. reflexivity. Qed.

Example decrypt_rejects_short_key :
  _decrypt xor_block (replicate 16 x00) [x00] iv0 = Raise ValueError.
Proof. reflexivity. Qed.

Example parse_without_template :
  _parse_adaptation_set dec_int plain_text
    (elem (dash "AdaptationSet") [("contentType", "audio")] None [])
    "https://h/"
  = Raise AttributeError.
Proof. reflexivity. Qed.

Example timeline_without_duration :
  segment_timeline dec_int [elem (dash "S") [("r", "2")] None []]
  = Raise TypeError.
Proof. reflexivity. Qed.

Example no_period :
  _download_dash_audio dec_int plain_text xor_block copy_ffmpeg
                       (alike net_flaky) reversed3
                       (elem (dash "MPD") [] None [])
  = Some (Outcome (Raise AttributeError) [] None None).
Proof. reflexivity. Qed.

Example only_video :
  _download_dash_audio dec_int plain_text xor_block copy_ffmpeg
                       (alike net_flaky) reversed3 (manifest [video])
  = Some (Outcome (Ok false) [MsgNoAudioTrack] None None).
Proof. reflexivity. Qed.

Example flaky_segment :
  fetch_segment xor_block net_flaky (track_of [0; 4; 8] None) key0 iv0 4
  = (Some (replicate 16 x00),
     [Get "https://h/seg-a1-4.m4s"; Get "https://h/seg-a1-4.m4s"; Sleep 1;
      Get "https://h/seg-a1-4.m4s"]).
Proof. reflexivity. Qed.

(** The key and the init segment at one URL that answers once: the
    init request is the second request for it and gets the 404. *)
Example shared_url_second_response :
  _download_dash_audio dec_int plain_text xor_block copy_ffmpeg
                       (alike net_once) (in_order 1) (manifest [key_at_init])
  = Some (Outcome (Ok false)
                  [MsgTrack (Some "audio") 1; MsgFetchKey; MsgFetchInit;
                   MsgHttpError 404]
                  None None).
Proof. vm_compute. reflexivity. Qed.

(** Without ffmpeg the session raises after the file is assembled; an
    ffmpeg that exits with code 0 and leaves no file makes
    [dest.stat()] raise. *)
Example ffmpeg_not_installed :
  _download_dash_audio dec_int plain_text xor_block no_ffmpeg
                       (alike net_missing) (in_order 1) (manifest [single])
  = Some (Outcome (Raise OSError)
                  [MsgTrack (Some "audio") 1; MsgFetchKey; MsgFetchInit;
                   MsgFetchSegments; MsgProgress 1 1; MsgDownloaded 1 0;
                   MsgConvert]
                  (Some []) None).
Proof. vm_compute. reflexivity. Qed.

Example ffmpeg_leaves_no_file :
  _download_dash_audio dec_int plain_text xor_block (λ _, (Ok 0, None))
                       (alike net_missing) (in_order 1) (manifest [single])
  = Some (Outcome (Raise OSError)
                  [MsgTrack (Some "audio") 1; MsgFetchKey; MsgFetchInit;
                   MsgFetchSegments; MsgProgress 1 1; MsgDownloaded 1 0;
                   MsgConvert]
                  (Some []) None).
Proof. vm_compute. reflexivity. Qed.

(** ** The helpers on small inputs *)

Example strip_whitespace : strip "  a b  " = "a b".
Proof. reflexivity. Qed.

Example strip_dots : strip_chars ". .a. ." ". " = "a".
Proof. reflexivity. Qed.

Example split_words : split "  a  b " = ["a"; "b"].
Proof. reflexivity. Qed.

Example splitlines_crlf :
  splitlines ("a" +:+ String "013" (String "010" "b")
                  +:+ String "010" (String "010" "c"))
  = ["a"; "b"; EmptyString; "c"].
Proof. reflexivity. Qed.

Example lower_latin1 : lower "AbC.MPD" = "abc.mpd".
Proof. reflexivity. Qed.

Example format_pads : format_03d 5 = "005" ∧ format_03d 1234 = "1234".
Proof. split; reflexivity. Qed.

Example sanitize_reserved : _sanitize_filename "CON: a/b?. " = "CON_ a_b_".
Proof. vm_compute. reflexivity. Qed.

Example sanitize_dots : _sanitize_filename ". ." = "audio".
Proof. vm_compute. reflexivity. Qed.

(** The URLs after [--urls] stop at [--urls-file]; the file gives two
    more, and the argument after the file name is not a URL. *)
Example parse_args_both :
  _parse_args ["x"; "--urls"; "u1"; "u2"; "--urls-file"; "list.txt"; "u3"]
    (λ path,
       if decide (path = "list.txt")
       then Some (Text (" x " +:+ String "010" "# c"
                             +:+ String "010" (String "010" "  y")))
       else None)
  = Some ["u1"; "u2"; "x"; "y"].
Proof. vm_compute. reflexivity. Qed.

Example parse_args_unreadable :
  _parse_args ["--urls-file"; "dir"]
    (λ path, if decide (path = "dir") then Some Unreadable else None)
  = None.
Proof. vm_compute. reflexivity. Qed.

(** The manifest test reads the URL in lower case, the test on
    [stream.aspx] reads it as it is. *)
Example on_response_manifest_url :
  on_response [] (PageResponse "https://h/Video.MPD?x" (Some "Text/HTML") 206)
  = [("https://h/Video.MPD?x", "text/html")].
Proof. vm_compute. reflexivity. Qed.

Example on_response_stream_page :
  on_response []
    (PageResponse "https://h/stream.aspx?id=a.mpd" (Some "video/mp4") 200)
  = [].
Proof. vm_compute. reflexivity. Qed.

Example retryable_cause :
  _is_retryable_error
    (Exc "APIError" "boom" (Some 404) (Some (Exc "ReadTimeout" "" None None)))
  = true.
Proof. vm_compute. reflexivity. Qed.

Example rate_limit_not_retryable :
  _is_retryable_error (Exc "APIError" "rate limit" (Some 429) None) = false.
Proof. vm_compute. reflexivity. Qed.

(** Two connection errors, then segments. *)
Example retry_twice :
  _transcribe_with_retry Z
    (λ n, if (n <? 2)%nat then inl (Exc "APIConnectionError" "" None None)
          else inr [Segment Z 0 1 "ciao"])
    "p"
  = (inr (Some [Segment Z 0 1 "ciao"]),
     [Transcribe "p"; TimeSleep 2; Transcribe "p"; TimeSleep 4;
      Transcribe "p"]).
Proof. vm_compute. reflexivity. Qed.

(** With whole seconds for timestamps: a pattern in another case, and a
    short segment with more words than the limit of 2. *)
Example hallucination_pattern :
  _is_hallucination Z Z.sub Z.ltb 10 3 (Segment Z 0 5 " [Musica] ") = true.
Proof. vm_compute. reflexivity. Qed.

Example hallucination_dense :
  _is_hallucination Z Z.sub Z.ltb 2 3 (Segment Z 0 1 "uno due tre") = true.
Proof. vm_compute. reflexivity. Qed.

Example speech_kept :
  _filter_hallucinations Z Z.sub Z.ltb 10 3
    [Segment Z 0 5 "buongiorno a tutti"; Segment Z 5 6 "  ";
     Segment Z 6 9 "Sottotitoli a cura di QTSS"]
  = ([Segment Z 0 5 "buongiorno a tutti"], 2).
Proof. vm_compute. reflexivity. Qed.

(** Two parts: the segments of the second are moved by 9, the end of
    the last segment of the first. *)
Example split_two_parts :
  (_split_and_transcribe Z Z.add Z.sub Z.ltb 0
     (λ part_path n,
        if decide (part_path = "a_part000")
        then inr [Segment Z 0 4 "uno"; Segment Z 4 9 "due"]
        else inr [Segment Z 1 3 "tre"])
     (λ part_path, inr 7) "a" ["a_part000"; "a_part001"]
     {["a"; "a_part000"; "a_part001"; "b"]}).1
  = inr [Segment Z 0 4 "uno"; Segment Z 4 9 "due"; Segment Z 10 12 "tre"].
Proof. vm_compute. reflexivity. Qed.

Example part_stem_of_second : part_stem "lezione" 1 = "lezione_part001".
Proof. reflexivity. Qed.

(** A transcription without segments gives one segment with the whole
    text; a segment without timestamps starts and ends at zero. *)
Example transcribe_single_text :
  _transcribe_single Z 0 (Transcription Z None " ciao ")
  = [Segment Z 0 0 "ciao"].
Proof. vm_compute. reflexivity. Qed.

Example transcribe_single_defaults :
  _transcribe_single Z 0
    (Transcription Z (Some [ApiSegment Z (Some 2) None (Some " uno ");
                            ApiSegment Z None (Some 5) None])
                   "uno")
  = [Segment Z 2 0 "uno"; Segment Z 0 5 EmptyString].
Proof. vm_compute. reflexivity. Qed.
